(** * kitty/child.py: a shallow embedding and its verified properties

    The development follows the layout of [kitty/child.py]:
    - Python values used by the module ([str], insertion-ordered [dict],
      exceptions);
    - [parse_environ_block] and [is_prewarmable], the pure helpers;
    - the calls the module makes to the operating system and to the
      rest of kitty, answered by a state-passing handler;
    - the [Child] class: [final_env], [fork], the introspection
      accessors, [get_pid_for_cwd] and [send_signal_for_key];
    - the theorems. *)

From Stdlib Require Import ZArith Lia List Ascii String Bool.
From stdpp Require Import base tactics option list gmap.
Import ListNotations.
Local Open Scope Z_scope.

(** ** Python values *)

(** A Python [str] is a sequence of characters.  The functions below only
    ever compare characters with each other, so one byte per character
    is enough. *)
Definition str := list ascii.

Definition s (x : string) : str := list_ascii_of_string x.

Definition NUL : ascii := Ascii.zero.
Definition EQUALS : ascii := "="%char.
Definition SLASH : ascii := "/"%char.

Definition len {A} (l : list A) : Z := Z.of_nat (length l).

(** [data[a:b]] for [0 <= a]. *)
Definition slice {A} (data : list A) (a b : Z) : list A :=
  take (Z.to_nat (b - a)) (drop (Z.to_nat a) data).

(** [data[a:]] for [0 <= a]. *)
Definition slice_from {A} (data : list A) (a : Z) : list A :=
  drop (Z.to_nat a) data.

(** Index of the first [c] in [l], counting from [i]; [-1] when absent. *)
Fixpoint find_aux (c : ascii) (l : str) (i : Z) : Z :=
  match l with
  | [] => -1
  | x :: l' => if Ascii.eqb x c then i else find_aux c l' (i + 1)
  end.

(** [data.find(c, start, stop)] for a one-character [c] and
    [0 <= start], [0 <= stop]. *)
Definition find (c : ascii) (data : str) (start stop : Z) : Z :=
  find_aux c (slice data start stop) start.

(** [data.find(c, start)]. *)
Definition find_from (c : ascii) (data : str) (start : Z) : Z :=
  find_aux c (slice_from data start) start.

(** *** Dictionaries

    A Python [dict] keeps its keys in insertion order; assigning to an
    existing key keeps the key's position. *)
Section Dict.
Context {K V : Type} `{EqDecision K}.

Definition dict := list (K * V).

Fixpoint dict_get (k : K) (d : list (K * V)) : option V :=
  match d with
  | [] => None
  | (k', v) :: d' => if decide (k' = k) then Some v else dict_get k d'
  end.

(** [d[k] = v] *)
Fixpoint dict_set (k : K) (v : V) (d : list (K * V)) : list (K * V) :=
  match d with
  | [] => [(k, v)]
  | (k', v') :: d' =>
      if decide (k' = k) then (k, v) :: d' else (k', v') :: dict_set k v d'
  end.

(** [d.pop(k, None)] and [del d[k]] when the key is present *)
Fixpoint dict_pop (k : K) (d : list (K * V)) : list (K * V) :=
  match d with
  | [] => []
  | (k', v') :: d' =>
      if decide (k' = k) then d' else (k', v') :: dict_pop k d'
  end.

(** [d.update(other)] *)
Definition dict_update (d other : list (K * V)) : list (K * V) :=
  fold_left (fun acc kv => dict_set kv.1 kv.2 acc) other d.

Definition dict_keys (d : list (K * V)) : list K := map fst d.
End Dict.

Arguments dict : clear implicits.

(** ** [parse_environ_block] *)

(** The [while True] loop of [parse_environ_block].  [fuel] bounds the
    number of iterations; [None] means the bound was reached before the
    loop executed [break]. *)
Fixpoint parse_loop (fuel : nat) (data : str) (ret : dict str str) (pos : Z)
  : option (dict str str) :=
  match fuel with
  | O => None
  | S fuel' =>
      let next_pos := find_from NUL data pos in
      if next_pos <=? pos then Some ret
      else
        let equal_pos := find EQUALS data pos next_pos in
        let ret' :=
          if equal_pos >? pos
          then dict_set (slice data pos equal_pos)
                        (slice data (equal_pos + 1) next_pos) ret
          else ret in
        parse_loop fuel' data ret' (next_pos + 1)
  end.

Definition parse_environ_block_fuel (fuel : nat) (data : str)
  : option (dict str str) :=
  parse_loop fuel data [] 0.

(** Every iteration consumes at least one character, so one more
    iteration than there are characters always reaches the [break]
    (lemma [parse_loop_enough_fuel] below). *)
Definition parse_environ_block (data : str) : dict str str :=
  default [] (parse_environ_block_fuel (S (length data)) data).


(** *** Exceptions *)

Inductive exn :=
| AssertionError | IndexError | UnboundLocalError | OSError | ValueError
| AttributeError | TermiosError | OtherException.

Inductive result (A : Type) :=
| Ok (a : A)
| Raise (e : exn).
Arguments Ok {A} a.
Arguments Raise {A} e.

(** ** [is_prewarmable] *)

(** [x == y] on strings *)
Definition str_eqb (x y : str) : bool := bool_decide (x = y).

(** [x.startswith(p)] *)
Fixpoint startswith (x p : str) {struct p} : bool :=
  match p with
  | [] => true
  | c :: p' =>
      match x with
      | d :: x' => Ascii.eqb c d && startswith x' p'
      | [] => false
      end
  end.

(** [x in y] on strings: [x] occurs in [y] as a substring.  The empty
    string occurs in every string. *)
Fixpoint str_in (x y : str) : bool :=
  startswith y x || match y with [] => false | _ :: y' => str_in x y' end.

(** [p.rfind(c)] as [Some] of the last index of [c], counting from
    [i]. *)
Fixpoint rfind_aux (c : ascii) (l : str) (i : Z) : option Z :=
  match l with
  | [] => None
  | x :: l' =>
      match rfind_aux c l' (i + 1) with
      | Some j => Some j
      | None => if Ascii.eqb x c then Some i else None
      end
  end.

Definition rfind (c : ascii) (p : str) : Z := default (-1) (rfind_aux c p 0).

(** [os.path.basename] of [posixpath]: [i = p.rfind('/') + 1; p[i:]]. *)
Definition basename (p : str) : str := slice_from p (rfind SLASH p + 1).

Definition is_prewarmable (argv : list str) : result bool :=
  match argv with
  | argv0 :: argv1 :: argv2 :: _ =>
      if negb (str_eqb (basename argv0) (s "kitty")) then Ok false
      else if negb (str_in (slice argv1 0 1) (s "@+")) then Ok false
      else
        match argv1 with
        | [] => Raise IndexError
        | c :: _ =>
            if Ascii.eqb c "@" then Ok true
            else if str_eqb argv1 (s "+")
                 then Ok (negb (str_eqb argv2 (s "open")))
                 else Ok (negb (str_eqb argv1 (s "+open")))
        end
  | _ => Ok false
  end.

(** ** The interface to the operating system and to the rest of kitty *)

Inductive signal := SIGINT | SIGTSTP | SIGQUIT.

#[global] Instance signal_eq_dec : EqDecision signal.
Proof. solve_decision. Defined.

(** Values of an environment mapping under construction: a string, or
    the marker [DELETE_ENV_VAR] of [kitty.options.utils], which
    [final_env] recognises by identity. *)
Inductive envval :=
| EnvStr (v : str)
| DELETE_ENV_VAR.

#[global] Instance envval_eq_dec : EqDecision envval.
Proof. solve_decision. Defined.

(** What [termios.tcgetattr] returns, as far as [send_signal_for_key]
    reads it: [t[3]] and [t[-1]].  The list of control characters has an
    entry at every index the [termios] module names. *)
Record termios_attr := {
  c_lflag : Z;
  c_cc : Z -> Z;
}.

(** [fast_data_types.get_options()] *)
Record options := {
  term : str;
  shell_integration : list str;
}.

(** The handle returned by [get_boss().prewarm(...)] *)
Record PrewarmedChild := {
  child_id : Z;
  child_process_pid : Z;
}.

(** Names imported from [kitty.constants], [termios] and [signal]. *)
Record constants := {
  is_macos : bool;
  shell_path : str;
  kitty_base_dir : str;
  handled_signals : list Z;
  ISIG : Z;
  VINTR : Z;
  VSUSP : Z;
  VQUIT : Z;
}.

(** Every call that leaves [child.py]: system calls, the platform's
    process introspection, and kitty's other modules.  The index is the
    type of the value the call returns. *)
Inductive call : Type -> Type :=
(* process introspection backend *)
| Cmdline_of_pid (pid : Z) : call (list str)
| Cwd_of_process (pid : Z) : call str
| Environ_of_process (pid : Z) : call str
| Process_group_map : call (gmap Z (list Z))
| Prewarm_worker_pid : call Z
(* terminal *)
| Tcgetpgrp (fd : Z) : call Z
| Tcgetattr (fd : Z) : call termios_attr
| Open_tty (name : str) : call Z
| Killpg (pgrp : Z) (sig : signal) : call unit
(* file descriptors *)
| Os_openpty : call (Z * Z)
| Pipe : call (Z * Z)
| Set_inheritable (fd : Z) (b : bool) : call unit
| Set_iutf8_fd (fd : Z) (b : bool) : call unit
| Set_blocking (fd : Z) (b : bool) : call unit
| Close (fd : Z) : call unit
| Thread_write (fd : Z) (data : str) : call unit
(* launching *)
| Which (exe : str) : call (option str)
| Spawn (exe cwd : str) (argv env : list str)
        (master slave stdin_read_fd stdin_write_fd
         ready_read_fd ready_write_fd : Z) (signals : list Z) : call Z
| Prewarm (slave : Z) (argv : list str) (cwd : str)
          (env : dict str envval) (stdin : option str) : call PrewarmedChild
(* environment construction *)
| Os_environ : call (dict str str)
| Kitty_ssl_env_var : call (option str)
| Lc_ctype_before_python : call bool
| Get_options : call options
| Getpid : call str
| Prewarm_socket_env_var : call str
| Checked_terminfo_dir : call (option str)
| Modify_shell_environ (opts : options) (env : dict str envval)
                       (argv : list str)
    : call (dict str envval * list str * option exn).

Inductive event :=
| Ev : forall A : Type, call A -> event.
Arguments Ev {A} c.

(** ** The [Child] class *)

Record Child := {
  child_fd : option Z;
  pid : option Z;
  forked : bool;
  is_prewarmed : bool;
  allow_remote_control : bool;
  is_clone_launch : str;
  argv : list str;
  cwd : str;
  stdin : option str;
  env : dict str envval;
  unmodified_argv : option (list str);
  final_exe : option str;
  final_argv0 : option str;
  prewarmed_child : option PrewarmedChild;
  terminal_ready_fd : option Z;
}.

Definition set_child_fd (x : option Z) (c : Child) : Child :=
  {| child_fd := x; pid := pid c; forked := forked c;
     is_prewarmed := is_prewarmed c;
     allow_remote_control := allow_remote_control c;
     is_clone_launch := is_clone_launch c; argv := argv c; cwd := cwd c;
     stdin := stdin c; env := env c; unmodified_argv := unmodified_argv c;
     final_exe := final_exe c; final_argv0 := final_argv0 c;
     prewarmed_child := prewarmed_child c;
     terminal_ready_fd := terminal_ready_fd c |}.

Definition set_pid (x : option Z) (c : Child) : Child :=
  {| child_fd := child_fd c; pid := x; forked := forked c;
     is_prewarmed := is_prewarmed c;
     allow_remote_control := allow_remote_control c;
     is_clone_launch := is_clone_launch c; argv := argv c; cwd := cwd c;
     stdin := stdin c; env := env c; unmodified_argv := unmodified_argv c;
     final_exe := final_exe c; final_argv0 := final_argv0 c;
     prewarmed_child := prewarmed_child c;
     terminal_ready_fd := terminal_ready_fd c |}.

Definition set_forked (x : bool) (c : Child) : Child :=
  {| child_fd := child_fd c; pid := pid c; forked := x;
     is_prewarmed := is_prewarmed c;
     allow_remote_control := allow_remote_control c;
     is_clone_launch := is_clone_launch c; argv := argv c; cwd := cwd c;
     stdin := stdin c; env := env c; unmodified_argv := unmodified_argv c;
     final_exe := final_exe c; final_argv0 := final_argv0 c;
     prewarmed_child := prewarmed_child c;
     terminal_ready_fd := terminal_ready_fd c |}.

Definition set_is_prewarmed (x : bool) (c : Child) : Child :=
  {| child_fd := child_fd c; pid := pid c; forked := forked c;
     is_prewarmed := x;
     allow_remote_control := allow_remote_control c;
     is_clone_launch := is_clone_launch c; argv := argv c; cwd := cwd c;
     stdin := stdin c; env := env c; unmodified_argv := unmodified_argv c;
     final_exe := final_exe c; final_argv0 := final_argv0 c;
     prewarmed_child := prewarmed_child c;
     terminal_ready_fd := terminal_ready_fd c |}.

Definition set_is_clone_launch (x : str) (c : Child) : Child :=
  {| child_fd := child_fd c; pid := pid c; forked := forked c;
     is_prewarmed := is_prewarmed c;
     allow_remote_control := allow_remote_control c;
     is_clone_launch := x; argv := argv c; cwd := cwd c;
     stdin := stdin c; env := env c; unmodified_argv := unmodified_argv c;
     final_exe := final_exe c; final_argv0 := final_argv0 c;
     prewarmed_child := prewarmed_child c;
     terminal_ready_fd := terminal_ready_fd c |}.

Definition set_argv (x : list str) (c : Child) : Child :=
  {| child_fd := child_fd c; pid := pid c; forked := forked c;
     is_prewarmed := is_prewarmed c;
     allow_remote_control := allow_remote_control c;
     is_clone_launch := is_clone_launch c; argv := x; cwd := cwd c;
     stdin := stdin c; env := env c; unmodified_argv := unmodified_argv c;
     final_exe := final_exe c; final_argv0 := final_argv0 c;
     prewarmed_child := prewarmed_child c;
     terminal_ready_fd := terminal_ready_fd c |}.

Definition set_stdin (x : option str) (c : Child) : Child :=
  {| child_fd := child_fd c; pid := pid c; forked := forked c;
     is_prewarmed := is_prewarmed c;
     allow_remote_control := allow_remote_control c;
     is_clone_launch := is_clone_launch c; argv := argv c; cwd := cwd c;
     stdin := x; env := env c; unmodified_argv := unmodified_argv c;
     final_exe := final_exe c; final_argv0 := final_argv0 c;
     prewarmed_child := prewarmed_child c;
     terminal_ready_fd := terminal_ready_fd c |}.

Definition set_unmodified_argv (x : option (list str)) (c : Child) : Child :=
  {| child_fd := child_fd c; pid := pid c; forked := forked c;
     is_prewarmed := is_prewarmed c;
     allow_remote_control := allow_remote_control c;
     is_clone_launch := is_clone_launch c; argv := argv c; cwd := cwd c;
     stdin := stdin c; env := env c; unmodified_argv := x;
     final_exe := final_exe c; final_argv0 := final_argv0 c;
     prewarmed_child := prewarmed_child c;
     terminal_ready_fd := terminal_ready_fd c |}.

Definition set_final_exe (x : option str) (c : Child) : Child :=
  {| child_fd := child_fd c; pid := pid c; forked := forked c;
     is_prewarmed := is_prewarmed c;
     allow_remote_control := allow_remote_control c;
     is_clone_launch := is_clone_launch c; argv := argv c; cwd := cwd c;
     stdin := stdin c; env := env c; unmodified_argv := unmodified_argv c;
     final_exe := x; final_argv0 := final_argv0 c;
     prewarmed_child := prewarmed_child c;
     terminal_ready_fd := terminal_ready_fd c |}.

Definition set_final_argv0 (x : option str) (c : Child) : Child :=
  {| child_fd := child_fd c; pid := pid c; forked := forked c;
     is_prewarmed := is_prewarmed c;
     allow_remote_control := allow_remote_control c;
     is_clone_launch := is_clone_launch c; argv := argv c; cwd := cwd c;
     stdin := stdin c; env := env c; unmodified_argv := unmodified_argv c;
     final_exe := final_exe c; final_argv0 := x;
     prewarmed_child := prewarmed_child c;
     terminal_ready_fd := terminal_ready_fd c |}.

Definition set_prewarmed_child (x : option PrewarmedChild) (c : Child) : Child :=
  {| child_fd := child_fd c; pid := pid c; forked := forked c;
     is_prewarmed := is_prewarmed c;
     allow_remote_control := allow_remote_control c;
     is_clone_launch := is_clone_launch c; argv := argv c; cwd := cwd c;
     stdin := stdin c; env := env c; unmodified_argv := unmodified_argv c;
     final_exe := final_exe c; final_argv0 := final_argv0 c;
     prewarmed_child := x;
     terminal_ready_fd := terminal_ready_fd c |}.

Definition set_terminal_ready_fd (x : option Z) (c : Child) : Child :=
  {| child_fd := child_fd c; pid := pid c; forked := forked c;
     is_prewarmed := is_prewarmed c;
     allow_remote_control := allow_remote_control c;
     is_clone_launch := is_clone_launch c; argv := argv c; cwd := cwd c;
     stdin := stdin c; env := env c; unmodified_argv := unmodified_argv c;
     final_exe := final_exe c; final_argv0 := final_argv0 c;
     prewarmed_child := prewarmed_child c;
     terminal_ready_fd := x |}.

(** Module-level state of [child.py]: the attributes it stores on its
    own functions, and the memo of [cmdline_of_prewarmer]. *)
Record Globals := {
  cached_map : option (gmap Z (list Z));
  default_env_env : option (dict str envval);
  lc_ctype_set_by_user : bool;
  prewarmer_cmdline : option (list str);
}.

Definition set_prewarmer_cmdline (x : option (list str)) (g : Globals) : Globals :=
  {| cached_map := cached_map g; default_env_env := default_env_env g;
     lc_ctype_set_by_user := lc_ctype_set_by_user g;
     prewarmer_cmdline := x |}.

(** [ProcessDesc] *)
Record ProcessDesc := {
  pd_cwd : option str;
  pd_pid : Z;
  pd_cmdline : option (list str);
}.

(** [max(l)] and [min(l)] of a non-empty list of integers *)
Definition py_max (x : Z) (l : list Z) : Z := fold_left Z.max l x.
Definition py_min (x : Z) (l : list Z) : Z := fold_left Z.min l x.

(** [p.split(c)] *)
Fixpoint split_on (c : ascii) (p : str) : list str :=
  match p with
  | [] => [[]]
  | x :: p' =>
      if Ascii.eqb x c then [] :: split_on c p'
      else match split_on c p' with
           | h :: t => (x :: h) :: t
           | [] => [[x]]
           end
  end.

(** [bool(x)] of a string: non-empty *)
Definition truthy {A} (x : list A) : bool :=
  match x with [] => false | _ :: _ => true end.

Section Program.
Context {world : Type}.
(** How the outside world answers a call: a value or an exception,
    and the world after the call. *)
Variable handle : forall A : Type, call A -> world -> result A * world.
Variable K : constants.
(** [str(DELETE_ENV_VAR)], for the f-string in [fork] *)
Variable delete_env_var_str : str.

(** The state a method of [Child] runs in: the object, the module's
    globals, the outside world, and the calls issued so far. *)
Record state := {
  self : Child;
  globals : Globals;
  os : world;
  trace : list event;
}.

(** Computations that read and write the state and may raise. *)
Definition M (A : Type) : Type := state -> result A * state.

Definition pure {A} (a : A) : M A := fun st => (Ok a, st).

Definition raise {A} (e : exn) : M A := fun st => (Raise e, st).

Definition bind {A B} (m : M A) (f : A -> M B) : M B :=
  fun st =>
    match m st with
    | (Ok a, st') => f a st'
    | (Raise e, st') => (Raise e, st')
    end.

(** [try: m / except Exception as e: h(e)] *)
Definition try_except {A} (m : M A) (h : exn -> M A) : M A :=
  fun st =>
    match m st with
    | (Ok a, st') => (Ok a, st')
    | (Raise e, st') => h e st'
    end.

(** [try: m / finally: f] *)
Definition try_finally {A} (m : M A) (f : M unit) : M A :=
  fun st =>
    match m st with
    | (r, st') =>
        match f st' with
        | (Ok _, st'') => (r, st'')
        | (Raise e, st'') => (Raise e, st'')
        end
    end.

Definition lift {A} (r : result A) : M A := fun st => (r, st).

Definition get_self : M Child := fun st => (Ok (self st), st).

Definition modify_self (f : Child -> Child) : M unit :=
  fun st => (Ok tt, {| self := f (self st); globals := globals st;
                       os := os st; trace := trace st |}).

Definition get_globals : M Globals := fun st => (Ok (globals st), st).

Definition modify_globals (f : Globals -> Globals) : M unit :=
  fun st => (Ok tt, {| self := self st; globals := f (globals st);
                       os := os st; trace := trace st |}).

(** Issue a call: it is appended to the trace and answered by the
    world. *)
Definition sys {A} (c : call A) : M A :=
  fun st =>
    let (r, w) := handle A c (os st) in
    (r, {| self := self st; globals := globals st; os := w;
           trace := trace st ++ [Ev c] |}).

Notation "x <- m ;; k" := (bind m (fun x => k))
  (at level 100, m at next level, right associativity).
Notation "m ;; k" := (bind m (fun _ => k))
  (at level 100, right associativity).

(** [assert o is not None] *)
Definition assert_some {A} (o : option A) : M A :=
  match o with
  | Some a => pure a
  | None => raise AssertionError
  end.

Fixpoint mapM {A B} (f : A -> M B) (l : list A) : M (list B) :=
  match l with
  | [] => pure []
  | x :: l' => y <- f x ;; ys <- mapM f l' ;; pure (y :: ys)
  end.

(** *** Module-level functions *)

Definition processes_in_group (grp : Z) : M (list Z) :=
  g <- get_globals ;;
  gmap <- match cached_map g with
          | Some m => pure m
          | None => try_except (sys Process_group_map) (fun _ => pure ∅)
          end ;;
  pure (default [] (gmap !! grp)).

Definition environ_of_process (p : Z) : M (dict str str) :=
  data <- sys (Environ_of_process p) ;;
  pure (parse_environ_block data).

Definition process_env : M (dict str envval) :=
  e <- sys Os_environ ;;
  let ans := map (fun kv : str * str => (kv.1, EnvStr kv.2)) e in
  ssl_env_var <- sys Kitty_ssl_env_var ;;
  let ans := match ssl_env_var with
             | Some v => dict_pop v ans
             | None => ans
             end in
  pure (dict_pop (s "KITTY_PREWARM_SOCKET") ans).

Definition default_env : M (dict str envval) :=
  g <- get_globals ;;
  match default_env_env g with
  | None => process_env
  | Some ans => pure ans
  end.

Definition openpty : M (Z * Z) :=
  p <- sys Os_openpty ;;
  let '(master, slave) := p in
  sys (Set_inheritable slave true) ;;
  sys (Set_inheritable master false) ;;
  sys (Set_iutf8_fd master true) ;;
  pure (master, slave).

(** [@run_once]: the first answer is kept. *)
Definition cmdline_of_prewarmer : M (list str) :=
  g <- get_globals ;;
  match prewarmer_cmdline g with
  | Some ans => pure ans
  | None =>
      ans <- try_except
               (wp <- sys Prewarm_worker_pid ;; sys (Cmdline_of_pid wp))
               (fun _ => pure [s ""]) ;;
      modify_globals (set_prewarmer_cmdline (Some ans)) ;;
      pure ans
  end.

(** *** Methods of [Child] *)

(** [final_env] up to and including the call of
    [modify_shell_environ] (lines 245-269): the environment as layered
    before the entries marked for deletion are dropped. *)
Definition final_env_layers : M (dict str envval) :=
  env' <- default_env ;;
  g <- get_globals ;;
  del_lc_ctype <-
    (if is_macos K
        && bool_decide (dict_get (s "LC_CTYPE") env' = Some (EnvStr (s "UTF-8")))
     then before <- sys Lc_ctype_before_python ;;
          pure (negb before && negb (lc_ctype_set_by_user g))
     else pure false) ;;
  let env' := if del_lc_ctype then dict_pop (s "LC_CTYPE") env' else env' in
  c <- get_self ;;
  let env' := dict_update env' (env c) in
  opts <- sys Get_options ;;
  let env' := dict_set (s "TERM") (EnvStr (term opts)) env' in
  let env' := dict_set (s "COLORTERM") (EnvStr (s "truecolor")) env' in
  kitty_pid <- sys Getpid ;;
  let env' := dict_set (s "KITTY_PID") (EnvStr kitty_pid) env' in
  env' <- (if negb (is_prewarmed c)
          then sock <- sys Prewarm_socket_env_var ;;
               let env' := dict_set (s "KITTY_PREWARM_SOCKET") (EnvStr sock) env' in
               pure (dict_set (s "KITTY_PREWARM_SOCKET_REAL_TTY")
                              (EnvStr (repeat " "%char 32)) env')
          else pure env') ;;
  let env' := if truthy (cwd c)
             then dict_set (s "PWD") (EnvStr (cwd c)) env' else env' in
  tdir <- sys Checked_terminfo_dir ;;
  let env' := match tdir with
             | Some d => if truthy d
                         then dict_set (s "TERMINFO") (EnvStr d) env' else env'
             | None => env'
             end in
  let env' := dict_set (s "KITTY_INSTALLATION_DIR")
                      (EnvStr (kitty_base_dir K)) env' in
  opts <- sys Get_options ;;
  modify_self (fun c => set_unmodified_argv (Some (argv c)) c) ;;
  if negb (bool_decide (s "disabled" ∈ shell_integration opts))
  then r <- sys (Modify_shell_environ opts env' (argv c)) ;;
       let '(env'', argv', err) := r in
       modify_self (set_argv argv') ;;
       match err with
       | Some e => raise e
       | None => pure env''
       end
  else pure env'.

Definition final_env : M (dict str envval) :=
  env' <- final_env_layers ;;
  let env' := filter (fun kv : str * envval => kv.2 ≠ DELETE_ENV_VAR) env' in
  c <- get_self ;;
  if truthy (is_clone_launch c)
  then modify_self (set_is_clone_launch (s "1")) ;;
       pure (dict_set (s "KITTY_IS_CLONE_LAUNCH")
                      (EnvStr (is_clone_launch c)) env')
  else pure (dict_pop (s "KITTY_IS_CLONE_LAUNCH") env').

(** [f'{k}={v}'] *)
Definition env_entry (kv : str * envval) : str :=
  kv.1 ++ [EQUALS] ++ match kv.2 with
                      | EnvStr v => v
                      | DELETE_ENV_VAR => delete_env_var_str
                      end.

Definition fork : M (option Z) :=
  c <- get_self ;;
  if forked c then pure None
  else
    modify_self (set_forked true) ;;
    p <- openpty ;;
    let '(master, slave) := p in
    c <- get_self ;;
    let stdin := stdin c in
    modify_self (set_stdin None) ;;
    pw <- lift (is_prewarmable (argv c)) ;;
    modify_self (set_is_prewarmed pw) ;;
    (* the names bound under [if not self.is_prewarmed]; unbound
       otherwise *)
    locals <-
      (if negb pw
       then
         p <- sys Pipe ;;
         let '(ready_read_fd, ready_write_fd) := p in
         sys (Set_inheritable ready_write_fd false) ;;
         sys (Set_inheritable ready_read_fd true) ;;
         q <- match stdin with
              | Some _ =>
                  q <- sys Pipe ;;
                  let '(stdin_read_fd, stdin_write_fd) := q in
                  sys (Set_inheritable stdin_write_fd false) ;;
                  sys (Set_inheritable stdin_read_fd true) ;;
                  pure (stdin_read_fd, stdin_write_fd)
              | None => pure (-1, -1)
              end ;;
         let '(stdin_read_fd, stdin_write_fd) := q in
         fe <- final_env ;;
         pure (Some (ready_read_fd, ready_write_fd,
                     stdin_read_fd, stdin_write_fd, map env_entry fe))
       else pure None) ;;
    c <- get_self ;;
    let argv' := argv c in
    exe <- match argv' with
           | exe :: _ => pure exe
           | [] => raise IndexError
           end ;;
    let argv' :=
      if is_macos K && str_eqb exe (shell_path K)
      then ("-"%char :: List.last (split_on SLASH exe) []) :: tail argv'
      else argv' in
    found <- sys (Which exe) ;;
    let final_exe := match found with
                     | Some f => if truthy f then f else exe
                     | None => exe
                     end in
    modify_self (set_final_exe (Some final_exe)) ;;
    modify_self (set_final_argv0 (head argv')) ;;
    c <- get_self ;;
    pid <-
      (if is_prewarmed c
       then
         fe <- final_env ;;
         c <- get_self ;;
         pc <- sys (Prewarm slave (argv c) (cwd c) fe stdin) ;;
         modify_self (set_prewarmed_child (Some pc)) ;;
         pure (child_process_pid pc)
       else
         match locals with
         | Some (ready_read_fd, ready_write_fd,
                 stdin_read_fd, stdin_write_fd, env) =>
             c <- get_self ;;
             sys (Spawn final_exe (cwd c) argv' env master slave
                        stdin_read_fd stdin_write_fd
                        ready_read_fd ready_write_fd (handled_signals K))
         | None => raise UnboundLocalError
         end) ;;
    sys (Close slave) ;;
    modify_self (set_pid (Some pid)) ;;
    modify_self (set_child_fd (Some master)) ;;
    c <- get_self ;;
    (if negb (is_prewarmed c)
     then
       match locals with
       | Some (ready_read_fd, ready_write_fd,
               stdin_read_fd, stdin_write_fd, _) =>
           match stdin with
           | Some data =>
               sys (Close stdin_read_fd) ;;
               sys (Thread_write stdin_write_fd data)
           | None => pure tt
           end ;;
           sys (Close ready_read_fd) ;;
           modify_self (set_terminal_ready_fd (Some ready_write_fd))
       | None => raise UnboundLocalError
       end
     else pure tt) ;;
    c <- get_self ;;
    match child_fd c with
    | Some fd => sys (Set_blocking fd false)
    | None => pure tt
    end ;;
    pure (Some pid).

(** [Child.cmdline_of_pid] *)
Definition Child_cmdline_of_pid (p : Z) : M (list str) :=
  ans <- try_except (sys (Cmdline_of_pid p)) (fun _ => pure []) ;;
  c <- get_self ;;
  replace <-
    (if bool_decide (Some p = pid c)
     then if negb (truthy ans) then pure true
          else if is_prewarmed c
               then pc <- cmdline_of_prewarmer ;;
                    pure (bool_decide (ans = pc))
               else pure false
     else pure false) ;;
  if (replace : bool) then pure (argv c) else pure ans.

Definition process_desc (p : Z) : M ProcessDesc :=
  cmdline <- try_except (x <- Child_cmdline_of_pid p ;; pure (Some x))
                        (fun _ => pure None) ;;
  cwd <- try_except
           (x <- sys (Cwd_of_process p) ;;
            pure (if truthy x then Some x else None))
           (fun _ => pure None) ;;
  pure {| pd_cwd := cwd; pd_pid := p; pd_cmdline := cmdline |}.

Definition foreground_processes : M (list ProcessDesc) :=
  c <- get_self ;;
  match child_fd c with
  | None => pure []
  | Some fd =>
      try_except
        (pgrp <- sys (Tcgetpgrp fd) ;;
         foreground_processes <-
           (if 0 <=? pgrp then processes_in_group pgrp else pure []) ;;
         mapM process_desc foreground_processes)
        (fun _ => pure [])
  end.

Definition cmdline : M (list str) :=
  try_except
    (c <- get_self ;;
     p <- assert_some (pid c) ;;
     ans <- Child_cmdline_of_pid p ;;
     if truthy ans then pure ans else pure (argv c))
    (fun _ => c <- get_self ;; pure (argv c)).

Definition environ : M (dict str str) :=
  try_except
    (c <- get_self ;;
     p <- assert_some (pid c) ;;
     environ_of_process p)
    (fun _ => pure []).

Definition current_cwd : M (option str) :=
  try_except
    (c <- get_self ;;
     p <- assert_some (pid c) ;;
     x <- sys (Cwd_of_process p) ;;
     pure (Some x))
    (fun _ => pure None).

(** The block under [with suppress(Exception)] yields [Some] of the
    value it returns, or [None] when control leaves it otherwise. *)
Definition get_pid_for_cwd (oldest : bool) : M (option Z) :=
  r <- try_except
         (c <- get_self ;;
          fd <- assert_some (child_fd c) ;;
          pgrp <- sys (Tcgetpgrp fd) ;;
          foreground_processes <-
            (if 0 <=? pgrp then processes_in_group pgrp else pure []) ;;
          match foreground_processes with
          | x :: l => pure (Some (if oldest then py_min x l else py_max x l))
          | [] => pure None
          end)
         (fun _ => pure None) ;;
  match r with
  | Some p => pure (Some p)
  | None => c <- get_self ;; pure (pid c)
  end.

Definition pid_for_cwd : M (option Z) := get_pid_for_cwd false.

Definition get_foreground_cwd (oldest : bool) : M (option str) :=
  try_except
    (p <- get_pid_for_cwd oldest ;;
     match p with
     | Some p => x <- sys (Cwd_of_process p) ;;
                 pure (if truthy x then Some x else None)
     | None => pure None
     end)
    (fun _ => pure None).

Definition foreground_cwd : M (option str) := get_foreground_cwd false.

Definition foreground_environ : M (dict str str) :=
  p <- pid_for_cwd ;;
  r <- match p with
       | Some p => try_except (e <- environ_of_process p ;; pure (Some e))
                              (fun _ => pure None)
       | None => pure None
       end ;;
  match r with
  | Some e => pure e
  | None =>
      c <- get_self ;;
      r <- match pid c with
           | Some p => try_except (e <- environ_of_process p ;; pure (Some e))
                                  (fun _ => pure None)
           | None => pure None
           end ;;
      match r with
      | Some e => pure e
      | None => pure []
      end
  end.

(** The terminal attributes [send_signal_for_key] consults (lines
    461-466): those of the tty named by the foreground environment,
    when it names one, and those of [child_fd] otherwise. *)
Definition terminal_attributes (fd : Z) : M termios_attr :=
  fe <- foreground_environ ;;
  let tty_name := dict_get (s "KITTY_PREWARM_SOCKET_REAL_TTY") fe in
  match tty_name with
  | Some name =>
      if truthy name && startswith name (s "/")
      then real_tty <- sys (Open_tty name) ;;
           try_finally (sys (Tcgetattr real_tty)) (sys (Close real_tty))
      else sys (Tcgetattr fd)
  | None => sys (Tcgetattr fd)
  end.

(** The [if]/[elif] chain over [cc] (lines 470-477): the signal for a
    key, if any. *)
Definition signal_for_key (cc : Z -> Z) (key_num : Z) : option signal :=
  if key_num =? cc (VINTR K) then Some SIGINT
  else if key_num =? cc (VSUSP K) then Some SIGTSTP
  else if key_num =? cc (VQUIT K) then Some SIGQUIT
  else None.

Definition send_signal_for_key (key_num : Z) : M bool :=
  c <- get_self ;;
  match child_fd c with
  | None => pure false
  | Some fd =>
      t <- terminal_attributes fd ;;
      if Z.land (c_lflag t) (ISIG K) =? 0 then pure false
      else
        let cc := c_cc t in
        match signal_for_key cc key_num with
        | None => pure false
        | Some sg =>
            pgrp <- sys (Tcgetpgrp fd) ;;
            sys (Killpg pgrp sg) ;;
            pure true
        end
  end.

End Program.

Arguments state : clear implicits.
Arguments M : clear implicits.

(** ** The environ block as a sequence of records

    The reading of [parse_environ_block] that the properties below are
    stated against: the block is cut into NUL-terminated records, and
    each record is cut at its first [=]. *)

(** [r] cut at its first NUL: the text before it and the text after. *)
Fixpoint split_nul (r : str) : option (str * str) :=
  match r with
  | [] => None
  | c :: r' =>
      if Ascii.eqb c NUL then Some ([], r')
      else match split_nul r' with
           | Some (rec, rest) => Some (c :: rec, rest)
           | None => None
           end
  end.

(** All NUL-terminated records of a block, [cur] being the reversed
    text of the record under way.  Text after the last NUL is not a
    record. *)
Fixpoint all_records_acc (cur : str) (r : str) : list str :=
  match r with
  | [] => []
  | c :: r' =>
      if Ascii.eqb c NUL then rev cur :: all_records_acc [] r'
      else all_records_acc (c :: cur) r'
  end.

Definition all_records (data : str) : list str := all_records_acc [] data.

(** The records that precede the first empty record. *)
Fixpoint records_acc (cur : str) (r : str) : list str :=
  match r with
  | [] => []
  | c :: r' =>
      if Ascii.eqb c NUL
      then match cur with
           | [] => []
           | _ :: _ => rev cur :: records_acc [] r'
           end
      else records_acc (c :: cur) r'
  end.

Definition records (data : str) : list str := records_acc [] data.

(** A record cut at its first [=]: the text before and the text
    after. *)
Fixpoint split_eq (rec : str) : option (str * str) :=
  match rec with
  | [] => None
  | c :: r =>
      if Ascii.eqb c EQUALS then Some ([], r)
      else match split_eq r with
           | Some (k, v) => Some (c :: k, v)
           | None => None
           end
  end.

(** The entry a record contributes: none when the record has no [=] or
    starts with it. *)
Definition record_entry (rec : str) : option (str * str) :=
  match split_eq rec with
  | Some (c :: k, v) => Some (c :: k, v)
  | _ => None
  end.

Definition add_record (d : dict str str) (rec : str) : dict str str :=
  match record_entry rec with
  | Some (k, v) => dict_set k v d
  | None => d
  end.

(** The value of the last pair with key [k]. *)
Definition lookup_last (k : str) (l : list (str * str)) : option str :=
  dict_get k (rev l).

(** [''.join(f"{k}={v}\0" for k, v in d.items())] *)
Definition serialize (d : dict str str) : str :=
  concat (map (fun kv : str * str => kv.1 ++ [EQUALS] ++ kv.2 ++ [NUL]) d).

Definition blob1 : str := s "A=1" ++ [NUL] ++ s "B=2" ++ [NUL].
Definition blob2 : str :=
  s "A=1" ++ [NUL] ++ s "GARBAGE" ++ [NUL] ++ s "B=2" ++ [NUL].

(** The shape of every entry [parse_environ_block] produces: a
    non-empty key without [=], and no NUL in key or value. *)
Definition entry_ok (kv : str * str) : Prop :=
  kv.1 ≠ [] ∧ (EQUALS ∉ kv.1) ∧ (NUL ∉ kv.1) ∧ (NUL ∉ kv.2).

Definition env_ok (d : dict str str) : Prop :=
  NoDup (dict_keys d) ∧ Forall entry_ok d.

(** ** [is_prewarmable] as the specification words it

    The forms set apart for opening files by path, read with either
    marker: [+open], [@open], and [+] or [@] followed by [open]. *)
Definition open_form (argv : list str) : bool :=
  match argv with
  | _ :: argv1 :: argv2 :: _ =>
      str_eqb argv1 (s "+open") || str_eqb argv1 (s "@open")
      || ((str_eqb argv1 (s "+") || str_eqb argv1 (s "@"))
          && str_eqb argv2 (s "open"))
  | _ => false
  end.

Definition prewarmable_excluding_open_forms (argv : list str) : bool :=
  match argv with
  | argv0 :: argv1 :: _ :: _ =>
      str_eqb (basename argv0) (s "kitty")
      && (startswith argv1 (s "@") || startswith argv1 (s "+"))
      && negb (open_form argv)
  | _ => false
  end.

(** ** Reading traces and states *)

Definition killpg_of (e : event) : option (Z * signal) :=
  match e with
  | Ev c =>
      match c with
      | Killpg pgrp sg => Some (pgrp, sg)
      | _ => None
      end
  end.

(** The signals delivered in a trace, oldest first. *)
Definition signals_sent (tr : list event) : list (Z * signal) :=
  omap killpg_of tr.

Section Invariants.
Context {world : Type}.

(** [m] preserves the state property [P], however it ends. *)
Definition stable (P : state world -> Prop) {A} (m : M world A) : Prop :=
  forall st, P st -> P (m st).2.

(** [m] returns a value in every state. *)
Definition no_raise {A} (m : M world A) : Prop :=
  forall st, exists a, (m st).1 = Ok a.

Definition forked_set (st : state world) : Prop := forked (self st) = true.

Definition sent (l : list (Z * signal)) (st : state world) : Prop :=
  signals_sent (trace st) = l.

Definition self_is (c : Child) (st : state world) : Prop := self st = c.

(** The foreground process group cannot be determined, or has no
    members: there is no terminal, the query on it raises or answers a
    negative group, or no process is found in the group. *)
Definition no_foreground_group
    (handle : forall A : Type, call A -> world -> result A * world)
    (st : state world) : Prop :=
  child_fd (self st) = None
  \/ exists fd, child_fd (self st) = Some fd
      /\ ((exists e, (sys handle (Tcgetpgrp fd) st).1 = Raise e)
          \/ exists pgrp st1,
              sys handle (Tcgetpgrp fd) st = (Ok pgrp, st1)
              /\ (pgrp < 0
                  \/ (processes_in_group handle pgrp st1).1 = Ok [])).

End Invariants.

(** ** A concrete world

    A world without state of its own that answers each call from a
    fixed table; calls outside the table fail with [OSError]. *)
Record answers := {
  ans_launch : bool;
  ans_tcgetpgrp : result Z;
  ans_process_group_map : result (gmap Z (list Z));
  ans_tcgetattr : result termios_attr;
  ans_killpg : result unit;
  ans_cmdline_of_pid : result (list str);
  ans_cwd_of_process : result str;
  ans_environ_of_process : result str;
  ans_options : result options;
  ans_modify_shell_environ : option exn;
}.

Definition answer (a : answers) (A : Type) (c : call A) (w : unit)
  : result A * unit :=
  match c in call T return result T * unit with
  | Tcgetpgrp _ => (ans_tcgetpgrp a, w)
  | Process_group_map => (ans_process_group_map a, w)
  | Tcgetattr _ => (ans_tcgetattr a, w)
  | Killpg _ _ => (ans_killpg a, w)
  | Cmdline_of_pid _ => (ans_cmdline_of_pid a, w)
  | Cwd_of_process _ => (ans_cwd_of_process a, w)
  | Environ_of_process _ => (ans_environ_of_process a, w)
  | Get_options => (ans_options a, w)
  | Getpid => (Ok (s "4242"), w)
  | Prewarm_socket_env_var => (Ok (s "3:/run/kitty-prewarm"), w)
  | Checked_terminfo_dir => (Ok None, w)
  | Modify_shell_environ _ env argv =>
      (Ok (env, argv, ans_modify_shell_environ a), w)
  | Os_environ => (Ok [(s "HOME", s "/root")], w)
  | Kitty_ssl_env_var => (Ok None, w)
  | Os_openpty => (if ans_launch a then Ok (5, 6) else Raise OSError, w)
  | Pipe => (if ans_launch a then Ok (7, 8) else Raise OSError, w)
  | Set_inheritable _ _ | Set_iutf8_fd _ _ | Set_blocking _ _
  | Close _ | Thread_write _ _ => (Ok tt, w)
  | Which _ => (Ok None, w)
  | Spawn _ _ _ _ _ _ _ _ _ _ _ =>
      (if ans_launch a then Ok 100 else Raise OSError, w)
  | _ => (Raise OSError, w)
  end.

(** The [termios] and platform constants of Linux. *)
Definition linux : constants :=
  {| is_macos := false; shell_path := s "/bin/sh";
     kitty_base_dir := s "/usr/lib/kitty"; handled_signals := [];
     ISIG := 1; VINTR := 0; VSUSP := 10; VQUIT := 1 |}.

(** A terminal with signal generation on and the usual control
    characters: [^C], [^Z] and [^\]. *)
Definition usual_tty : termios_attr :=
  {| c_lflag := 1;
     c_cc := fun i => if i =? 0 then 3 else if i =? 10 then 26
                      else if i =? 1 then 28 else 0 |}.

(** The same terminal after [stty susp ^C]: interrupt and suspend share
    one control character. *)
Definition shared_intr_susp_tty : termios_attr :=
  {| c_lflag := 1;
     c_cc := fun i => if i =? 0 then 3 else if i =? 10 then 3
                      else if i =? 1 then 28 else 0 |}.

Definition quiet : answers :=
  {| ans_launch := false;
     ans_tcgetpgrp := Ok 7;
     ans_process_group_map := Ok {[ 7 := [101; 150; 99] ]};
     ans_tcgetattr := Ok usual_tty;
     ans_killpg := Ok tt;
     ans_cmdline_of_pid := Raise OSError;
     ans_cwd_of_process := Raise OSError;
     ans_environ_of_process := Raise OSError;
     ans_options := Ok {| term := s "xterm-kitty";
                          shell_integration := [s "enabled"] |};
     ans_modify_shell_environ := None |}.

Definition with_tty (t : termios_attr) (a : answers) : answers :=
  {| ans_launch := ans_launch a;
     ans_tcgetpgrp := ans_tcgetpgrp a;
     ans_process_group_map := ans_process_group_map a;
     ans_tcgetattr := Ok t;
     ans_killpg := ans_killpg a;
     ans_cmdline_of_pid := ans_cmdline_of_pid a;
     ans_cwd_of_process := ans_cwd_of_process a;
     ans_environ_of_process := ans_environ_of_process a;
     ans_options := ans_options a;
     ans_modify_shell_environ := ans_modify_shell_environ a |}.

(** The quiet world with ptys, pipes and [spawn] available. *)
Definition launching : answers :=
  {| ans_launch := true;
     ans_tcgetpgrp := ans_tcgetpgrp quiet;
     ans_process_group_map := ans_process_group_map quiet;
     ans_tcgetattr := ans_tcgetattr quiet;
     ans_killpg := ans_killpg quiet;
     ans_cmdline_of_pid := ans_cmdline_of_pid quiet;
     ans_cwd_of_process := ans_cwd_of_process quiet;
     ans_environ_of_process := ans_environ_of_process quiet;
     ans_options := ans_options quiet;
     ans_modify_shell_environ := ans_modify_shell_environ quiet |}.

(** A child that has been launched on master fd 5 as pid 100. *)
Definition launched (e : dict str envval) : Child :=
  {| child_fd := Some 5; pid := Some 100; forked := true;
     is_prewarmed := false; allow_remote_control := false;
     is_clone_launch := []; argv := [s "/bin/sh"]; cwd := s "/tmp";
     stdin := None; env := e; unmodified_argv := None;
     final_exe := Some (s "/bin/sh"); final_argv0 := Some (s "/bin/sh");
     prewarmed_child := None; terminal_ready_fd := None |}.

(** A child that has not been launched. *)
Definition unlaunched (e : dict str envval) (clone : str) : Child :=
  {| child_fd := None; pid := None; forked := false;
     is_prewarmed := false; allow_remote_control := false;
     is_clone_launch := clone; argv := [s "/bin/sh"]; cwd := s "/tmp";
     stdin := None; env := e; unmodified_argv := None;
     final_exe := None; final_argv0 := None;
     prewarmed_child := None; terminal_ready_fd := None |}.

Definition no_globals : Globals :=
  {| cached_map := None; default_env_env := None;
     lc_ctype_set_by_user := false; prewarmer_cmdline := None |}.


Definition start (c : Child) (g : Globals) : state unit :=
  {| self := c; globals := g; os := tt; trace := [] |}.

(** The launched child in the quiet world, before any call. *)
Definition quiet_start : state unit := start (launched []) no_globals.

(** The same state after [tcgetpgrp], and after the group scan. *)
Definition quiet_after_tcgetpgrp : state unit :=
  (sys (answer quiet) (Tcgetpgrp 5) quiet_start).2.

Definition quiet_after_scan : state unit :=
  (processes_in_group (answer quiet) 7 quiet_after_tcgetpgrp).2.

(** The same state after the terminal attributes have been read, after
    the query for the foreground group that follows, and after the
    delivery of [SIGINT]. *)
Definition quiet_after_attributes : state unit :=
  (terminal_attributes (answer quiet) 5 quiet_start).2.

Definition quiet_after_group : state unit :=
  (sys (answer quiet) (Tcgetpgrp 5) quiet_after_attributes).2.

Definition quiet_after_killpg : state unit :=
  (sys (answer quiet) (Killpg 7 SIGINT) quiet_after_group).2.

(** [^C] typed at a terminal whose interrupt and suspend characters are
    both [^C]. *)
Definition shared_char_run : result bool * state unit :=
  send_signal_for_key (answer (with_tty shared_intr_susp_tty quiet))
                      linux 3 quiet_start.

(** A child not yet launched, and the state its first [fork] leaves
    where [spawn] works and where no pty can be opened. *)
Definition fresh_start : state unit := start (unlaunched [] []) no_globals.

Definition after_first_fork : state unit :=
  (fork (answer launching) linux [] fresh_start).2.

Definition after_failed_fork : state unit :=
  (fork (answer quiet) linux [] fresh_start).2.


(** ** Further functions of [child.py] *)

(** [cmdline_of_pid] outside macOS (lines 50-52), once the file has
    been read and decoded: [list(filter(None, raw.split('\0')))]. *)
Definition split_cmdline (raw : str) : list str :=
  filter (fun x : str => x ≠ []) (split_on NUL raw).

(** The file the kernel offers for a command line: every argument
    followed by a NUL. *)
Definition cmdline_file (args : list str) : str :=
  concat (map (fun a : str => a ++ [NUL]) args).

(** [ans[pgid].append(pid)] on a [defaultdict(list)] *)
Definition group_append (ans : gmap Z (list Z)) (pgid pid : Z)
  : gmap Z (list Z) :=
  <[pgid := default [] (ans !! pgid) ++ [pid]]> ans.

(** [process_group_map] on macOS (lines 40-44), over the pairs
    [(pid, pgid)] that [_process_group_map()] yields. *)
Definition process_group_map_macos (pairs : list (Z * Z)) : gmap Z (list Z) :=
  fold_left (fun ans pp => group_append ans pp.2 pp.1) pairs ∅.

(** [p.split(c, n)] *)
Fixpoint split_on_max (c : ascii) (p : str) (n : nat) {struct p} : list str :=
  match p with
  | [] => [[]]
  | x :: p' =>
      match n with
      | O => [x :: p']
      | S n' =>
          if Ascii.eqb x c then [] :: split_on_max c p' n'
          else match split_on_max c p' n with
               | h :: t => (x :: h) :: t
               | [] => [[x]]
               end
      end
  end.

(** [raw.split(' ', 5)[4]]; [None] stands for the [IndexError]. *)
Definition stat_field_4 (raw : str) : option str :=
  split_on_max " "%char raw 5 !! 4%nat.

Section ProcessGroupMapLinux.
(** [int(x)] of a string: the integer, or [None] for [ValueError]. *)
Variable py_int : str -> option Z.

(** One round of the loop of [process_group_map] outside macOS (lines
    73-87), for the directory entry [x] whose [stat] file reads as
    [stat]: [None] is [continue], [Some (pid, q)] reaches
    [ans[q].append(pid)].  Only [OSError] is caught around the read; any
    other exception leaves the function. *)
Definition scan_entry (x : str) (stat : result str)
  : result (option (Z * Z)) :=
  match py_int x with
  | None => Ok None
  | Some pid =>
      match stat with
      | Raise OSError => Ok None
      | Raise e => Raise e
      | Ok raw =>
          match stat_field_4 raw with
          | None => Ok None
          | Some f =>
              match py_int f with
              | None => Ok None
              | Some q => Ok (Some (pid, q))
              end
          end
      end
  end.

(** [process_group_map] outside macOS, over the entries of [/proc] in
    the order of [os.listdir], each with what reading its [stat] file
    gives. *)
Fixpoint process_group_map_linux_from (ans : gmap Z (list Z))
    (entries : list (str * result str)) : result (gmap Z (list Z)) :=
  match entries with
  | [] => Ok ans
  | (x, stat) :: rest =>
      match scan_entry x stat with
      | Raise e => Raise e
      | Ok None => process_group_map_linux_from ans rest
      | Ok (Some (pid, q)) =>
          process_group_map_linux_from (group_append ans q pid) rest
      end
  end.

Definition process_group_map_linux (entries : list (str * result str))
  : result (gmap Z (list Z)) :=
  process_group_map_linux_from ∅ entries.

(** The pairs the entries contribute when the scan completes. *)
Definition scanned_pairs (entries : list (str * result str))
  : list (Z * Z) :=
  omap (fun e : str * result str =>
          match scan_entry e.1 e.2 with
          | Ok (Some pp) => Some pp
          | _ => None
          end) entries.

End ProcessGroupMapLinux.

Definition set_cached_map (x : option (gmap Z (list Z))) (g : Globals)
  : Globals :=
  {| cached_map := x; default_env_env := default_env_env g;
     lc_ctype_set_by_user := lc_ctype_set_by_user g;
     prewarmer_cmdline := prewarmer_cmdline g |}.

Definition set_default_env_env (x : option (dict str envval)) (g : Globals)
  : Globals :=
  {| cached_map := cached_map g; default_env_env := x;
     lc_ctype_set_by_user := lc_ctype_set_by_user g;
     prewarmer_cmdline := prewarmer_cmdline g |}.

Definition set_lc_ctype_set_by_user (x : bool) (g : Globals) : Globals :=
  {| cached_map := cached_map g; default_env_env := default_env_env g;
     lc_ctype_set_by_user := x;
     prewarmer_cmdline := prewarmer_cmdline g |}.

Section ProgramMore.
Context {world : Type}.
Variable handle : forall A : Type, call A -> world -> result A * world.
(** [get_boss().prewarm.mark_child_as_ready] *)
Variable mark_child_as_ready : Z -> M world unit.

Notation "x <- m ;; k" := (bind m (fun x => k))
  (at level 100, m at next level, right associativity).
Notation "m ;; k" := (bind m (fun _ => k))
  (at level 100, right associativity).

(** [delattr(process_group_map, 'cached_map')] *)
Definition del_cached_map : M world unit :=
  g <- get_globals ;;
  match cached_map g with
  | Some _ => modify_globals (set_cached_map None)
  | None => raise AttributeError
  end.

(** [with cached_process_data(): body] (lines 106-116) *)
Definition cached_process_data {A} (body : M world A) : M world A :=
  cm <- try_except (sys handle Process_group_map) (fun _ => pure ∅) ;;
  modify_globals (set_cached_map (Some cm)) ;;
  try_finally body del_cached_map.

(** [set_default_env] (lines 162-169) *)
Definition set_default_env (val : option (dict str envval)) : M world unit :=
  env' <- process_env handle ;;
  let has_lctype :=
    match val with
    | Some v => truthy v && bool_decide (s "LC_CTYPE" ∈ dict_keys v)
    | None => false
    end in
  let env' :=
    match val with
    | Some v => if truthy v then dict_update env' v else env'
    | None => env'
    end in
  modify_globals (set_default_env_env (Some env')) ;;
  modify_globals (set_lc_ctype_set_by_user has_lctype).

(** [Child.__del__] (lines 337-341); an absent attribute reads as
    [-1]. *)
Definition __del__ : M world unit :=
  c <- get_self ;;
  let fd := default (-1) (terminal_ready_fd c) in
  (if fd >? -1 then sys handle (Close fd) else pure tt) ;;
  modify_self (set_terminal_ready_fd (Some (-1))).

(** [Child.mark_terminal_ready] (lines 343-348) *)
Definition mark_terminal_ready : M world unit :=
  c <- get_self ;;
  if is_prewarmed c
  then match prewarmed_child c with
       | Some pc => mark_child_as_ready (child_id pc)
       | None => raise AttributeError
       end
  else match terminal_ready_fd c with
       | Some fd =>
           sys handle (Close fd) ;;
           modify_self (set_terminal_ready_fd (Some (-1)))
       | None => raise AttributeError
       end.

(** [self.cmdline_of_pid(pid)] for a [pid] that may be [None]: the
    platform's [cmdline_of_pid] has no process to read for [None] and
    raises, which leaves [ans = []]. *)
Definition Child_cmdline_of_pid_opt (p : option Z) : M world (list str) :=
  match p with
  | Some p => Child_cmdline_of_pid handle p
  | None =>
      c <- get_self ;;
      if bool_decide (pid c = None) then pure (argv c) else pure []
  end.

(** [Child.foreground_cmdline] (lines 387-393); the property
    [pid_for_cwd] is read twice. *)
Definition foreground_cmdline : M world (list str) :=
  try_except
    (p <- pid_for_cwd handle ;;
     assert_some p ;;
     p <- pid_for_cwd handle ;;
     ans <- Child_cmdline_of_pid_opt p ;;
     if truthy ans then pure ans else cmdline handle)
    (fun _ => cmdline handle).

End ProgramMore.

Section Hoare.
Context {world : Type}.

(** When [m] starts in a state with [P] and returns [a], the state it
    leaves has [Q a]. *)
Definition returns (P : state world -> Prop) {A} (m : M world A)
    (Q : A -> state world -> Prop) : Prop :=
  forall st, P st -> forall a st', m st = (Ok a, st') -> Q a st'.

(** A property of the [Child] object alone. *)
Definition about_self (Q : Child -> Prop) (st : state world) : Prop :=
  Q (self st).

End Hoare.

(** The fields [final_env] has no assignment to. *)
Definition untouched_by_final_env (c : Child) :=
  (child_fd c, pid c, forked c, is_prewarmed c, allow_remote_control c,
   cwd c, stdin c, env c, final_exe c, final_argv0 c, prewarmed_child c,
   terminal_ready_fd c).

(** A scan of the process table that fails. *)
Definition scan_fails : answers :=
  {| ans_launch := false;
     ans_tcgetpgrp := Ok 7;
     ans_process_group_map := Raise OSError;
     ans_tcgetattr := Ok usual_tty;
     ans_killpg := Ok tt;
     ans_cmdline_of_pid := Raise OSError;
     ans_cwd_of_process := Raise OSError;
     ans_environ_of_process := Raise OSError;
     ans_options := Ok {| term := s "xterm-kitty";
                          shell_integration := [s "disabled"] |};
     ans_modify_shell_environ := None |}.

(** A reading of decimal digits, to run the scan on. *)
Definition digits_int (x : str) : option Z :=
  if forallb (λ c : ascii, (48 <=? nat_of_ascii c)%nat
                           && (nat_of_ascii c <=? 57)%nat) x
     && negb (bool_decide (x = []))
  then Some (fold_left (λ n c, 10 * n + Z.of_nat (nat_of_ascii c) - 48) x 0)
  else None.

Definition proc_listing : list (str * result str) :=
  [ (s "4242", Ok (s "4242 (vim) S 4100 4242 4100 34816 4242"));
    (s "self", Raise OSError);
    (s "17", Raise OSError);
    (s "4100", Ok (s "4100 (bash) S 1 4100 4100 34816 4242")) ].

(** A listing in which one [stat] file does not decode. *)
Definition bad_listing : list (str * result str) :=
  [ (s "self", Raise OSError); (s "17", Raise ValueError) ].

(** The launched child once its readiness pipe has been released, by
    [__del__] and by [mark_terminal_ready]. *)
Definition after_del : state unit :=
  (__del__ (answer launching) after_first_fork).2.

Definition after_mark_ready : state unit :=
  (mark_terminal_ready (answer launching) (fun _ => pure tt)
     after_first_fork).2.

(** A child whose own environment tries to delete [TERM] and to
    replace [COLORTERM], and a child launched as a clone. *)
Definition term_override_start : state unit :=
  start (unlaunched [(s "TERM", DELETE_ENV_VAR);
                     (s "COLORTERM", EnvStr (s "256"))] [])
        no_globals.

Definition clone_start : state unit :=
  start (unlaunched [] (s "clone-token")) no_globals.


(** Worlds in which the foreground group of the launched child cannot
    be had: the terminal refuses the query, it answers with a negative
    group, or the group it names has no process. *)
Definition tty_query_fails : answers :=
  {| ans_launch := false;
     ans_tcgetpgrp := Raise OSError;
     ans_process_group_map := ans_process_group_map quiet;
     ans_tcgetattr := ans_tcgetattr quiet;
     ans_killpg := ans_killpg quiet;
     ans_cmdline_of_pid := ans_cmdline_of_pid quiet;
     ans_cwd_of_process := ans_cwd_of_process quiet;
     ans_environ_of_process := ans_environ_of_process quiet;
     ans_options := ans_options quiet;
     ans_modify_shell_environ := ans_modify_shell_environ quiet |}.

Definition negative_group : answers :=
  {| ans_launch := false;
     ans_tcgetpgrp := Ok (-1);
     ans_process_group_map := ans_process_group_map quiet;
     ans_tcgetattr := ans_tcgetattr quiet;
     ans_killpg := ans_killpg quiet;
     ans_cmdline_of_pid := ans_cmdline_of_pid quiet;
     ans_cwd_of_process := ans_cwd_of_process quiet;
     ans_environ_of_process := ans_environ_of_process quiet;
     ans_options := ans_options quiet;
     ans_modify_shell_environ := ans_modify_shell_environ quiet |}.

Definition empty_group : answers :=
  {| ans_launch := false;
     ans_tcgetpgrp := Ok 7;
     ans_process_group_map := Ok {[ 8 := [300] ]};
     ans_tcgetattr := ans_tcgetattr quiet;
     ans_killpg := ans_killpg quiet;
     ans_cmdline_of_pid := ans_cmdline_of_pid quiet;
     ans_cwd_of_process := ans_cwd_of_process quiet;
     ans_environ_of_process := ans_environ_of_process quiet;
     ans_options := ans_options quiet;
     ans_modify_shell_environ := ans_modify_shell_environ quiet |}.

(** The quiet world, except that working directories can be read:
    command lines still cannot. *)
Definition cwd_readable : answers :=
  {| ans_launch := false;
     ans_tcgetpgrp := ans_tcgetpgrp quiet;
     ans_process_group_map := ans_process_group_map quiet;
     ans_tcgetattr := ans_tcgetattr quiet;
     ans_killpg := ans_killpg quiet;
     ans_cmdline_of_pid := Raise OSError;
     ans_cwd_of_process := Ok (s "/home");
     ans_environ_of_process := ans_environ_of_process quiet;
     ans_options := ans_options quiet;
     ans_modify_shell_environ := ans_modify_shell_environ quiet |}.

(** A world answering from a table, with an environment and a name for
    the SSL variable of its own. *)
Definition answer_environ (e : dict str str) (ssl : option str) (a : answers)
    (A : Type) (c : call A) (w : unit) : result A * unit :=
  match c in call T return result T * unit with
  | Os_environ => (Ok e, w)
  | Kitty_ssl_env_var => (Ok ssl, w)
  | c' => answer a _ c' w
  end.

(** The environment of a kitty that was itself started from a
    pre-warmed process. *)
Definition inherited_environ : dict str str :=
  [ (s "HOME", s "/root");
    (s "KITTY_PREWARM_SOCKET", s "3:/run/kitty-prewarm");
    (s "SSL_CERT_FILE", s "/etc/ssl/cert.pem") ].

(** * Properties *)

(** ** Strings *)

Lemma len_app {A} (l1 l2 : list A) : len (l1 ++ l2) = len l1 + len l2.
Proof. unfold len. rewrite length_app. lia. Qed.

Lemma len_nonneg {A} (l : list A) : 0 <= len l.
Proof. unfold len. lia. Qed.

Lemma slice_from_app (pre r : str) : slice_from (pre ++ r) (len pre) = r.
Proof.
  unfold slice_from, len. rewrite Nat2Z.id. by rewrite drop_app_length.
Qed.

Lemma slice_app (pre x r : str) :
  slice (pre ++ x ++ r) (len pre) (len pre + len x) = x.
Proof.
  unfold slice, len. rewrite Nat2Z.id, drop_app_length.
  replace (Z.to_nat _) with (length x) by lia.
  by rewrite take_app_length.
Qed.

Lemma find_aux_shift c l i : find_aux c l i = -1 ∨ i <= find_aux c l i < i + len l.
Proof.
  revert i. induction l as [|x l IH]; intros i; simpl; [by left|].
  unfold len; simpl length. destruct (Ascii.eqb x c); [right; lia|].
  destruct (IH (i + 1)) as [->|H]; [by left|]. right. unfold len in H. lia.
Qed.

Lemma split_nul_None r i :
  split_nul r = None → find_aux NUL r i = -1.
Proof.
  revert i. induction r as [|c r IH]; intros i; simpl; [done|].
  destruct (Ascii.eqb c NUL); [done|].
  destruct (split_nul r) as [[? ?]|]; [done|]. intros _. by apply IH.
Qed.

Lemma split_nul_Some r rec rest i :
  split_nul r = Some (rec, rest) →
  r = rec ++ NUL :: rest ∧ find_aux NUL r i = i + len rec ∧ NUL ∉ rec.
Proof.
  revert rec i. induction r as [|c r IH]; intros rec i; simpl; [done|].
  destruct (Ascii.eqb c NUL) eqn:E.
  - apply Ascii.eqb_eq in E as ->. intros [= <- <-].
    split; [done|]. split; [unfold len; simpl; lia|]. apply not_elem_of_nil.
  - destruct (split_nul r) as [[rec' rest']|] eqn:Hs; [|done].
    intros [= <- <-]. destruct (IH rec' (i + 1) eq_refl) as (-> & -> & Hn).
    split; [done|]. split; [unfold len; simpl length; lia|].
    apply not_elem_of_cons. split; [|done].
    intros <-. by rewrite Ascii.eqb_refl in E.
Qed.

Lemma split_eq_None rec i :
  split_eq rec = None → find_aux EQUALS rec i = -1.
Proof.
  revert i. induction rec as [|c r IH]; intros i; simpl; [done|].
  destruct (Ascii.eqb c EQUALS); [done|].
  destruct (split_eq r) as [[? ?]|]; [done|]. intros _. by apply IH.
Qed.

Lemma split_eq_Some rec k v i :
  split_eq rec = Some (k, v) →
  rec = k ++ EQUALS :: v ∧ find_aux EQUALS rec i = i + len k ∧ EQUALS ∉ k.
Proof.
  revert k i. induction rec as [|c r IH]; intros k i; simpl; [done|].
  destruct (Ascii.eqb c EQUALS) eqn:E.
  - apply Ascii.eqb_eq in E as ->. intros [= <- <-].
    split; [done|]. split; [unfold len; simpl; lia|]. apply not_elem_of_nil.
  - destruct (split_eq r) as [[k' v']|] eqn:Hs; [|done].
    intros [= <- <-]. destruct (IH k' (i + 1) eq_refl) as (-> & -> & Hn).
    split; [done|]. split; [unfold len; simpl length; lia|].
    apply not_elem_of_cons. split; [|done].
    intros <-. by rewrite Ascii.eqb_refl in E.
Qed.

Lemma records_acc_split cur r :
  records_acc cur r =
    match split_nul r with
    | None => []
    | Some (rec, rest) =>
        match rev cur ++ rec with
        | [] => []
        | x => x :: records_acc [] rest
        end
    end.
Proof.
  revert cur. induction r as [|c r IH]; intros cur; simpl; [done|].
  destruct (Ascii.eqb c NUL) eqn:E.
  - rewrite app_nil_r. destruct cur as [|a cur]; [done|].
    destruct (rev (a :: cur)) eqn:Hr; [|done].
    apply (f_equal length) in Hr. rewrite length_rev in Hr. done.
  - rewrite IH. destruct (split_nul r) as [[rec rest]|]; [|done].
    simpl. by rewrite <- app_assoc.
Qed.

(** ** [parse_environ_block] *)

Lemma record_entry_find (rec : str) (pos : Z) :
  0 <= pos →
  match record_entry rec with
  | Some (k, v) =>
      rec = k ++ EQUALS :: v ∧ find_aux EQUALS rec pos = pos + len k ∧
      0 < len k ∧ EQUALS ∉ k
  | None => find_aux EQUALS rec pos <= pos
  end.
Proof.
  intros Hpos. unfold record_entry.
  destruct (split_eq rec) as [[k v]|] eqn:Hs.
  - destruct (split_eq_Some _ _ _ pos Hs) as (-> & Hf & Hk).
    destruct k as [|c k].
    + rewrite Hf. unfold len; simpl. lia.
    + repeat split; try done; unfold len; simpl length; lia.
  - rewrite (split_eq_None _ pos Hs). lia.
Qed.

(** One iteration of the loop handles one record: started at the
    beginning of [r], with [pre] already consumed, the loop folds
    [add_record] over the records of [r]. *)
Lemma parse_loop_records (fuel : nat) :
  ∀ (pre r : str) (ret : dict str str),
    (length r < fuel)%nat →
    parse_loop fuel (pre ++ r) ret (len pre)
    = Some (fold_left add_record (records r) ret).
Proof.
  induction fuel as [|fuel IH]; intros pre r ret Hfuel; [lia|].
  cbn [parse_loop]. unfold find_from. rewrite slice_from_app.
  unfold records. rewrite records_acc_split.
  destruct (split_nul r) as [[rec rest]|] eqn:Hs.
  2:{ rewrite (split_nul_None _ _ Hs).
      pose proof (len_nonneg pre).
      destruct (Z.leb_spec (-1) (len pre)); [done|lia]. }
  destruct (split_nul_Some _ _ _ (len pre) Hs) as (-> & -> & Hnul).
  destruct rec as [|c rec].
  { replace (len pre + len []) with (len pre) by (unfold len; simpl; lia).
    by rewrite Z.leb_refl. }
  set (rec' := c :: rec) in *.
  assert (0 < len rec') by (unfold len, rec'; simpl length; lia).
  destruct (Z.leb_spec (len pre + len rec') (len pre)); [lia|].
  cbn [rev app]. change (rev [] ++ rec') with rec'. unfold rec' at 5.
  fold rec'. cbn [fold_left].
  replace (len pre + len rec' + 1) with (len (pre ++ rec' ++ [NUL]))
    by (rewrite !len_app; unfold len; simpl; lia).
  replace (pre ++ rec' ++ NUL :: rest) with ((pre ++ rec' ++ [NUL]) ++ rest)
    by (by rewrite <- !app_assoc).
  rewrite length_app in Hfuel.
  assert (length rest < fuel)%nat by (simpl in Hfuel; lia).
  match goal with
  | |- parse_loop _ _ ?d _ = _ =>
      replace d with (add_record ret rec'); [by apply IH|]
  end.
  unfold add_record, find.
  replace ((pre ++ rec' ++ [NUL]) ++ rest) with (pre ++ rec' ++ NUL :: rest)
    by (by rewrite <- !app_assoc).
  rewrite slice_app.
  pose proof (record_entry_find rec' (len pre) (len_nonneg pre)) as Hrec.
  destruct (record_entry rec') as [[k v]|].
  - destruct Hrec as (Hr & Hf & Hk & _). rewrite Hf.
    destruct (Z.gtb_spec (len pre + len k) (len pre)); [|lia].
    rewrite Hr. f_equal.
    + rewrite <- app_assoc. symmetry. apply slice_app.
    + replace (pre ++ (k ++ EQUALS :: v) ++ NUL :: rest)
        with ((pre ++ k ++ [EQUALS]) ++ v ++ NUL :: rest)
        by (by rewrite <- !app_assoc).
      replace (len pre + len k + 1) with (len (pre ++ k ++ [EQUALS]))
        by (rewrite !len_app; unfold len; simpl; lia).
      replace (len pre + len (k ++ EQUALS :: v))
        with (len (pre ++ k ++ [EQUALS]) + len v)
        by (rewrite !len_app; unfold len; simpl length; lia).
      symmetry. apply slice_app.
  - destruct (Z.gtb_spec (find_aux EQUALS rec' (len pre)) (len pre)); [lia|done].
Qed.

Lemma parse_environ_block_records (data : str) :
  parse_environ_block data = fold_left add_record (records data) [].
Proof.
  unfold parse_environ_block, parse_environ_block_fuel.
  change data with ([] ++ data) at 2. change 0 with (len (@nil ascii)).
  rewrite parse_loop_records; [done|lia].
Qed.

Lemma parse_loop_enough_fuel (data : str) (extra : nat) :
  parse_environ_block_fuel (S (length data) + extra) data
  = Some (parse_environ_block data).
Proof.
  rewrite parse_environ_block_records. unfold parse_environ_block_fuel.
  change data with ([] ++ data) at 2. change 0 with (len (@nil ascii)).
  apply parse_loop_records. lia.
Qed.

(** *** Dictionaries *)

Lemma dict_keys_set {V} (k : str) (v : V) (d : dict str V) :
  dict_keys (dict_set k v d)
  = if decide (k ∈ dict_keys d) then dict_keys d else dict_keys d ++ [k].
Proof.
  induction d as [|[k' v'] d IH]; simpl; [done|].
  destruct (decide (k' = k)) as [->|Hne]; simpl.
  - rewrite decide_True; [done|]. apply elem_of_cons. by left.
  - rewrite IH. destruct (decide (k ∈ dict_keys d)) as [Hin|Hnin].
    + rewrite decide_True; [done|]. apply elem_of_cons. by right.
    + rewrite decide_False; [done|]. intros [?|?]%elem_of_cons; congruence.
Qed.

Lemma dict_set_fresh {V} (k : str) (v : V) (d : dict str V) :
  k ∉ dict_keys d → dict_set k v d = d ++ [(k, v)].
Proof.
  induction d as [|[k' v'] d IH]; simpl; [done|].
  intros [Hne Hnin]%not_elem_of_cons.
  rewrite decide_False by done. by rewrite IH.
Qed.

Lemma dict_set_NoDup {V} (k : str) (v : V) (d : dict str V) :
  NoDup (dict_keys d) → NoDup (dict_keys (dict_set k v d)).
Proof.
  intros Hd. rewrite dict_keys_set. case_decide; [done|].
  apply NoDup_app. split; [done|]. split.
  - intros x Hx ->%list_elem_of_singleton. done.
  - apply NoDup_singleton.
Qed.

Lemma dict_set_Forall {V} (P : str * V → Prop) k v (d : dict str V) :
  P (k, v) → Forall P d → Forall P (dict_set k v d).
Proof.
  intros Hkv. induction 1 as [|[k' v'] d Hx Hd IH]; simpl.
  - by constructor.
  - case_decide; constructor; done.
Qed.

Lemma dict_update_fresh {V} (d acc : dict str V) :
  NoDup (dict_keys (acc ++ d)) → dict_update acc d = acc ++ d.
Proof.
  unfold dict_update. revert acc.
  induction d as [|[k v] d IH]; intros acc Hnd; simpl.
  - by rewrite app_nil_r.
  - unfold dict_keys in Hnd. rewrite map_app in Hnd. simpl in Hnd.
    apply NoDup_app in Hnd as (Hacc & Hdisj & Hd).
    rewrite dict_set_fresh.
    + rewrite IH; [by rewrite <- app_assoc|].
      unfold dict_keys. rewrite <- app_assoc, map_app. simpl.
      apply NoDup_app. done.
    + intros Hin. apply (Hdisj _ Hin). apply elem_of_cons. by left.
Qed.

(** *** Records *)

Lemma elem_of_rev {A} (x : A) (l : list A) : x ∈ rev l ↔ x ∈ l.
Proof. rewrite !list_elem_of_In. symmetry. apply in_rev. Qed.

Lemma records_acc_ok (r cur : str) :
  NUL ∉ cur →
  Forall (λ rec, rec ≠ [] ∧ NUL ∉ rec) (records_acc cur r).
Proof.
  revert cur. induction r as [|c r IH]; intros cur Hcur; simpl; [constructor|].
  destruct (Ascii.eqb c NUL) eqn:E.
  - destruct cur as [|a cur]; constructor.
    + split; [|by rewrite elem_of_rev].
      intros Hr%(f_equal length). by rewrite length_rev in Hr.
    + apply IH, not_elem_of_nil.
  - apply IH. apply not_elem_of_cons. split; [|done].
    intros <-. by rewrite Ascii.eqb_refl in E.
Qed.

Lemma record_entry_ok (rec k v : str) :
  NUL ∉ rec → record_entry rec = Some (k, v) →
  rec = k ++ EQUALS :: v ∧ entry_ok (k, v).
Proof.
  intros Hnul Hrec.
  pose proof (record_entry_find rec 0 (Z.le_refl 0)) as H.
  rewrite Hrec in H. destruct H as (-> & _ & Hlen & Heq).
  split; [done|]. unfold entry_ok; simpl.
  rewrite elem_of_app, elem_of_cons in Hnul.
  repeat split; try tauto.
  intros ->. unfold len in Hlen; simpl in Hlen. lia.
Qed.

Lemma split_eq_app (k v : str) :
  EQUALS ∉ k → split_eq (k ++ EQUALS :: v) = Some (k, v).
Proof.
  induction k as [|c k IH]; simpl; intros Hk.
  - done.
  - apply not_elem_of_cons in Hk as [Hc Hk].
    destruct (Ascii.eqb c EQUALS) eqn:E.
    + apply Ascii.eqb_eq in E. congruence.
    + by rewrite IH.
Qed.

Lemma record_entry_app (kv : str * str) :
  entry_ok kv → record_entry (kv.1 ++ [EQUALS] ++ kv.2) = Some kv.
Proof.
  destruct kv as [k v]. intros (Hne & Heq & _ & _); simpl in *.
  unfold record_entry. rewrite split_eq_app by done.
  by destruct k.
Qed.

Lemma split_nul_app (rec rest : str) :
  NUL ∉ rec → split_nul (rec ++ NUL :: rest) = Some (rec, rest).
Proof.
  induction rec as [|c rec IH]; simpl; intros Hk.
  - done.
  - apply not_elem_of_cons in Hk as [Hc Hk].
    destruct (Ascii.eqb c NUL) eqn:E.
    + apply Ascii.eqb_eq in E. congruence.
    + by rewrite IH.
Qed.

Lemma records_serialize (d : dict str str) :
  Forall entry_ok d →
  records (serialize d) = map (λ kv, kv.1 ++ [EQUALS] ++ kv.2) d.
Proof.
  unfold records, serialize.
  induction 1 as [|[k v] d (Hne & Heq & Hk & Hv) Hd IH]; simpl in *; [done|].
  rewrite records_acc_split.
  replace ((k ++ EQUALS :: v ++ [NUL]) ++ _)
    with ((k ++ EQUALS :: v) ++ NUL :: concat
            (map (λ kv : str * str, kv.1 ++ EQUALS :: kv.2 ++ [NUL]) d))
    by (by rewrite <- !app_assoc; simpl; rewrite <- app_assoc).
  rewrite split_nul_app.
  - simpl. rewrite IH. by destruct k.
  - rewrite elem_of_app, elem_of_cons. intros [?|[?|?]]; done.
Qed.

Lemma add_record_ok (d : dict str str) (rec : str) :
  NUL ∉ rec → env_ok d → env_ok (add_record d rec).
Proof.
  intros Hnul [Hnd Hall]. unfold add_record.
  destruct (record_entry rec) as [[k v]|] eqn:Hrec; [|done].
  destruct (record_entry_ok _ _ _ Hnul Hrec) as [_ Hok].
  split; [by apply dict_set_NoDup | by apply dict_set_Forall].
Qed.

Lemma fold_add_record_ok (l : list str) (d : dict str str) :
  Forall (λ rec, rec ≠ [] ∧ NUL ∉ rec) l → env_ok d →
  env_ok (fold_left add_record l d).
Proof.
  intros Hl. revert d. induction Hl as [|rec l [_ Hnul] Hl IH]; intros d Hd.
  - done.
  - simpl. apply IH. by apply add_record_ok.
Qed.

Lemma parse_environ_block_ok (data : str) :
  env_ok (parse_environ_block data).
Proof.
  rewrite parse_environ_block_records.
  apply fold_add_record_ok.
  - apply records_acc_ok, not_elem_of_nil.
  - split; constructor.
Qed.

Lemma fold_add_record_serialized (d acc : dict str str) :
  Forall entry_ok d →
  fold_left add_record (map (λ kv, kv.1 ++ [EQUALS] ++ kv.2) d) acc
  = dict_update acc d.
Proof.
  unfold dict_update. intros Hd. revert acc.
  induction Hd as [|kv d Hkv Hd IH]; intros acc; simpl; [done|].
  rewrite <- IH. f_equal. unfold add_record.
  change (kv.1 ++ EQUALS :: kv.2) with (kv.1 ++ [EQUALS] ++ kv.2).
  rewrite record_entry_app by done. by destruct kv.
Qed.

Lemma parse_serialize (d : dict str str) :
  env_ok d → parse_environ_block (serialize d) = d.
Proof.
  intros [Hnd Hall].
  rewrite parse_environ_block_records, records_serialize by done.
  rewrite fold_add_record_serialized by done.
  by rewrite dict_update_fresh.
Qed.

Lemma dict_get_set {V} (k k' : str) (v : V) (d : dict str V) :
  dict_get k (dict_set k' v d)
  = if decide (k' = k) then Some v else dict_get k d.
Proof.
  induction d as [|[k0 v0] d IH]; simpl.
  - done.
  - destruct (decide (k0 = k')) as [->|Hne]; simpl.
    + by destruct (decide (k' = k)).
    + rewrite IH. destruct (decide (k0 = k)) as [->|]; [|done].
      by rewrite decide_False.
Qed.

Lemma dict_get_app {V} (k : str) (d1 d2 : dict str V) :
  dict_get k (d1 ++ d2)
  = match dict_get k d1 with Some v => Some v | None => dict_get k d2 end.
Proof.
  induction d1 as [|[k0 v0] d1 IH]; simpl; [done|].
  by destruct (decide (k0 = k)).
Qed.

Lemma dict_get_fold_add_record (k : str) (l : list str) (d : dict str str) :
  dict_get k (fold_left add_record l d)
  = match lookup_last k (omap record_entry l) with
    | Some v => Some v
    | None => dict_get k d
    end.
Proof.
  unfold lookup_last. revert d.
  induction l as [|rec l IH]; intros d; simpl; [done|].
  rewrite IH. unfold add_record.
  destruct (record_entry rec) as [[k0 v0]|]; simpl; [|done].
  rewrite dict_get_app, dict_get_set. simpl.
  change (list_omap _ _ record_entry l) with (omap record_entry l).
  destruct (dict_get k (rev (omap record_entry l))); [done|].
  by destruct (decide (k0 = k)).
Qed.

Lemma record_entry_spec (rec k v : str) :
  record_entry rec = Some (k, v)
  ↔ k ≠ [] ∧ (EQUALS ∉ k) ∧ rec = k ++ EQUALS :: v.
Proof.
  split.
  - unfold record_entry.
    destruct (split_eq rec) as [[k0 v0]|] eqn:Hs; [|done].
    destruct (split_eq_Some _ _ _ 0 Hs) as (-> & _ & Hk).
    destruct k0; [done|]. intros [= <- <-]. by repeat split.
  - intros (Hne & Hk & ->). unfold record_entry.
    rewrite split_eq_app by done. by destruct k.
Qed.

(** C2: [parse_environ_block] returns a mapping for every input: the
    loop reaches its [break] within [len(data) + 1] iterations, and more
    iterations change nothing.  On the three blobs of the specification
    it returns [{"A":"1","B":"2"}], the same with the record [GARBAGE]
    skipped, and the empty mapping. *)
Theorem parse_environ_block_total :
  (∀ (data : str) (extra : nat),
      parse_environ_block_fuel (S (length data) + extra) data
      = Some (parse_environ_block data))
  ∧ parse_environ_block blob1 = [(s "A", s "1"); (s "B", s "2")]
  ∧ parse_environ_block blob2 = [(s "A", s "1"); (s "B", s "2")]
  ∧ parse_environ_block [] = [].
Proof.
  split; [exact parse_loop_enough_fuel|].
  repeat split; vm_compute; reflexivity.
Qed.

(** C3: parsing, writing every entry back as [KEY=VALUE] followed by a
    NUL, and parsing again gives the mapping of the first parse, entry
    for entry and in the same order; every record of the re-serialized
    block has an [=] and yields an entry. *)
Theorem parse_serialize_parse (data : str) :
  parse_environ_block (serialize (parse_environ_block data))
  = parse_environ_block data
  ∧ Forall (λ rec, is_Some (record_entry rec))
           (records (serialize (parse_environ_block data))).
Proof.
  destruct (parse_environ_block_ok data) as [Hnd Hall].
  split; [by apply parse_serialize|].
  rewrite records_serialize by done.
  apply Forall_fmap. eapply Forall_impl; [exact Hall|].
  intros kv Hkv. simpl. rewrite record_entry_app; done.
Qed.

(** C4, as the code has it: the records read are those before the first
    empty record; a record whose first [=] comes after at least one
    character gives the entry (text before that [=], text after it); a
    record without [=], or starting with [=], gives none; the mapping
    holds, for each key, the value of the last record with that key. *)
Theorem parse_environ_block_entries (data : str) :
  (∀ k : str,
      dict_get k (parse_environ_block data)
      = lookup_last k (omap record_entry (records data)))
  ∧ (∀ rec k v : str,
        record_entry rec = Some (k, v)
        ↔ k ≠ [] ∧ (EQUALS ∉ k) ∧ rec = k ++ EQUALS :: v).
Proof.
  split; [|exact record_entry_spec].
  intros k. rewrite parse_environ_block_records, dict_get_fold_add_record.
  by destruct (lookup_last _ _).
Qed.

(** C4 as stated fails: the record [=foo] of the block ["=foo\0"]
    contains an [=], with the empty text before it and [foo] after, and
    the record [A=1] of the block ["\0A=1\0"] is NUL-terminated and
    contains an [=]; neither block yields any entry. *)
Lemma parse_environ_block_drops_records_with_equals :
  (s "=foo" ∈ all_records (s "=foo" ++ [NUL])
   ∧ split_eq (s "=foo") = Some ([], s "foo")
   ∧ parse_environ_block (s "=foo" ++ [NUL]) = [])
  ∧ (s "A=1" ∈ all_records ([NUL] ++ s "A=1" ++ [NUL])
     ∧ split_eq (s "A=1") = Some (s "A", s "1")
     ∧ parse_environ_block ([NUL] ++ s "A=1" ++ [NUL]) = []).
Proof.
  repeat split; try (vm_compute; reflexivity).
  - vm_compute. apply list_elem_of_here.
  - vm_compute. apply list_elem_of_further, list_elem_of_here.
Qed.

(** ** [is_prewarmable] *)

Lemma str_eqb_eq (x y : str) : str_eqb x y = true ↔ x = y.
Proof. unfold str_eqb. apply bool_decide_eq_true. Qed.

Lemma str_eqb_neq (x y : str) : str_eqb x y = false ↔ x ≠ y.
Proof. unfold str_eqb. apply bool_decide_eq_false. Qed.

Lemma startswith_char (x : str) (c : ascii) :
  startswith x [c] = true ↔ ∃ x', x = c :: x'.
Proof.
  destruct x as [|d x]; simpl.
  - split; [done|]. by intros [? ?].
  - rewrite andb_true_r, Ascii.eqb_eq. split.
    + intros ->. by eexists.
    + by intros [? [= -> _]].
Qed.

Lemma str_in_first_char (c : ascii) (x : str) :
  str_in (slice (c :: x) 0 1) (s "@+") = Ascii.eqb c "@" || Ascii.eqb c "+".
Proof.
  change (slice (c :: x) 0 1) with [c]. cbn.
  by destruct (Ascii.eqb c "@"), (Ascii.eqb c "+").
Qed.

(** C5, as the code has it: true exactly for three or more arguments,
    the first with basename [kitty], the second starting with [@], or
    starting with [+] without being [+open] or a lone [+] before
    [open].  The four launches of the specification are classified as it
    says. *)
Theorem is_prewarmable_spec (argv : list str) :
  (is_prewarmable argv = Ok true
   ↔ ∃ argv0 argv1 argv2 rest,
       argv = argv0 :: argv1 :: argv2 :: rest
       ∧ basename argv0 = s "kitty"
       ∧ (startswith argv1 (s "@") = true
          ∨ (startswith argv1 (s "+") = true
             ∧ argv1 ≠ s "+open"
             ∧ ¬ (argv1 = s "+" ∧ argv2 = s "open"))))
  ∧ is_prewarmable [s "kitty"; s "@"; s "ls"] = Ok true
  ∧ is_prewarmable [s "kitty"; s "+"; s "open"; s "/tmp"] = Ok false
  ∧ is_prewarmable [s "kitty"; s "+open"; s "/tmp"] = Ok false
  ∧ is_prewarmable [s "bash"] = Ok false.
Proof.
  split; [|repeat split; vm_compute; reflexivity].
  destruct argv as [|argv0 [|argv1 [|argv2 rest]]];
    try (split; [done | by intros (?&?&?&?&?&_)]).
  cbn [is_prewarmable].
  destruct (str_eqb (basename argv0) (s "kitty")) eqn:Hb; cbn [negb].
  2:{ apply str_eqb_neq in Hb. split; [done|].
      intros (?&?&?&?&[= <- <- <- <-]&?&_). done. }
  apply str_eqb_eq in Hb.
  destruct argv1 as [|c argv1].
  { cbn. split; [done|]. intros (?&?&?&?&[= <- <- <- <-]&_&[?|[? _]]); done. }
  rewrite str_in_first_char.
  destruct (Ascii.eqb_spec c "@") as [->|Hat]; cbn [negb andb orb].
  { split; [|done]. intros _.
    exists argv0, ("@"%char :: argv1), argv2, rest.
    repeat split; try done. left. reflexivity. }
  destruct (Ascii.eqb_spec c "+") as [->|Hplus]; cbn [negb andb orb].
  2:{ split; [done|].
      intros (?&?&?&?&[= <- <- <- <-]&_&
              [(?&[= ?])%startswith_char|[(?&[= ?])%startswith_char _]]);
        done. }
  destruct (str_eqb ("+"%char :: argv1) (s "+")) eqn:H1.
  - apply str_eqb_eq in H1 as [= ->].
    destruct (str_eqb argv2 (s "open")) eqn:H2; cbn [negb].
    + apply str_eqb_eq in H2 as ->. split; [done|].
      intros (?&?&?&?&[= <- <- <- <-]&_&
              [(?&[= ?])%startswith_char|(_&_&Hn)]).
      by destruct Hn.
    + apply str_eqb_neq in H2. split; [|done]. intros _.
      exists argv0, ["+"%char], argv2, rest.
      repeat split; try done. right.
      split; [reflexivity|]. split; [done|]. by intros [_ ?].
  - apply str_eqb_neq in H1.
    destruct (str_eqb ("+"%char :: argv1) (s "+open")) eqn:H2; cbn [negb].
    + apply str_eqb_eq in H2. split; [done|].
      intros (?&?&?&?&[= <- <- <- <-]&_&
              [(?&[= ?])%startswith_char|(_&Hn&_)]). done.
    + apply str_eqb_neq in H2. split; [|done]. intros _.
      exists argv0, ("+"%char :: argv1), argv2, rest.
      repeat split; try done. right.
      split; [reflexivity|]. split; [done|]. by intros [? _].
Qed.

(** C5 as stated fails for the [@] marker: [kitty @ open /tmp] and
    [kitty @open /tmp] are open forms, and both are classified as
    pre-warmable. *)
Lemma is_prewarmable_at_open :
  (open_form [s "kitty"; s "@"; s "open"; s "/tmp"] = true
   ∧ prewarmable_excluding_open_forms
       [s "kitty"; s "@"; s "open"; s "/tmp"] = false
   ∧ is_prewarmable [s "kitty"; s "@"; s "open"; s "/tmp"] = Ok true)
  ∧ (open_form [s "kitty"; s "@open"; s "/tmp"] = true
     ∧ prewarmable_excluding_open_forms
         [s "kitty"; s "@open"; s "/tmp"] = false
     ∧ is_prewarmable [s "kitty"; s "@open"; s "/tmp"] = Ok true).
Proof. repeat split; vm_compute; reflexivity. Qed.

(** An empty second argument passes the test [argv[1][:1] not in '@+']
    (the empty string occurs in every string) and [argv[1][0]] then
    raises. *)
Lemma is_prewarmable_empty_argv1 :
  is_prewarmable [s "kitty"; s ""; s "x"] = Raise IndexError.
Proof. reflexivity. Qed.

(** ** The methods of [Child] *)

Section ProgramProperties.
Context {world : Type}.
Variable handle : forall A : Type, call A -> world -> result A * world.
Variable K : constants.
Variable delete_env_var_str : str.

Implicit Types st : state world.

(** *** Running a computation step by step *)

Lemma run_bind {A B} (m : M world A) (f : A -> M world B) st a st' :
  m st = (Ok a, st') → bind m f st = f a st'.
Proof. unfold bind. by intros ->. Qed.

Lemma run_bind_raise {A B} (m : M world A) (f : A -> M world B) st e st' :
  m st = (Raise e, st') → bind m f st = (Raise e, st').
Proof. unfold bind. by intros ->. Qed.

Lemma run_get_self {B} (f : Child -> M world B) st :
  bind get_self f st = f (self st) st.
Proof. reflexivity. Qed.

Lemma run_get_globals {B} (f : Globals -> M world B) st :
  bind get_globals f st = f (globals st) st.
Proof. reflexivity. Qed.

Lemma run_modify_self {B} (g : Child -> Child) (f : unit -> M world B) st :
  bind (modify_self g) f st
  = f tt {| self := g (self st); globals := globals st;
            os := os st; trace := trace st |}.
Proof. reflexivity. Qed.

Lemma run_try_ok {A} (m : M world A) h st a st' :
  m st = (Ok a, st') → try_except m h st = (Ok a, st').
Proof. unfold try_except. by intros ->. Qed.

Lemma run_try_raise {A} (m : M world A) h st e st' :
  m st = (Raise e, st') → try_except m h st = h e st'.
Proof. unfold try_except. by intros ->. Qed.

Lemma sys_raise {A} (c : call A) st e :
  (sys handle c st).1 = Raise e →
  ∃ st', sys handle c st = (Raise e, st').
Proof. destruct (sys handle c st) as [r st']. simpl. intros ->. by eexists. Qed.

(** *** Preserved properties *)

Lemma stable_pure P {A} (a : A) : stable P (pure (world:=world) a).
Proof. by intros st. Qed.

Lemma stable_raise P {A} e : stable P (raise (world:=world) (A:=A) e).
Proof. by intros st. Qed.

Lemma stable_lift P {A} (r : result A) : stable P (lift (world:=world) r).
Proof. by intros st. Qed.

Lemma stable_get_self P : stable P (get_self (world:=world)).
Proof. by intros st. Qed.

Lemma stable_get_globals P : stable P (get_globals (world:=world)).
Proof. by intros st. Qed.

Lemma stable_assert_some P {A} (o : option A) :
  stable P (assert_some (world:=world) o).
Proof. by destruct o; intros st. Qed.

Lemma stable_bind P {A B} (m : M world A) (f : A -> M world B) :
  stable P m → (∀ a, stable P (f a)) → stable P (bind m f).
Proof.
  intros Hm Hf st HP. unfold bind. specialize (Hm st HP).
  destruct (m st) as [[a|e] st']; simpl in *; [by apply Hf|done].
Qed.

Lemma stable_try_except P {A} (m : M world A) h :
  stable P m → (∀ e, stable P (h e)) → stable P (try_except m h).
Proof.
  intros Hm Hh st HP. unfold try_except. specialize (Hm st HP).
  destruct (m st) as [[a|e] st']; simpl in *; [done|by apply Hh].
Qed.

Lemma stable_try_finally P {A} (m : M world A) f :
  stable P m → stable P f → stable P (try_finally m f).
Proof.
  intros Hm Hf st HP. unfold try_finally. specialize (Hm st HP).
  destruct (m st) as [r st']; simpl in *. specialize (Hf st' Hm).
  by destruct (f st') as [[?|?] st''].
Qed.

Lemma stable_mapM P {A B} (f : A -> M world B) (l : list A) :
  (∀ a, stable P (f a)) → stable P (mapM f l).
Proof.
  intros Hf. induction l as [|x l IH]; simpl.
  - apply stable_pure.
  - apply stable_bind; [done|]. intros y.
    apply stable_bind; [done|]. intros ys. apply stable_pure.
Qed.

Lemma forked_sys {A} (c : call A) : stable forked_set (sys handle c).
Proof. intros st H. unfold sys. by destruct (handle A c (os st)). Qed.

Lemma forked_modify_self (g : Child -> Child) :
  (∀ c, forked (g c) = forked c) →
  stable forked_set (modify_self (world:=world) g).
Proof. intros Hg st H. unfold forked_set in *. simpl. by rewrite Hg. Qed.

Lemma forked_modify_globals g :
  stable forked_set (modify_globals (world:=world) g).
Proof. by intros st H. Qed.

Lemma signals_sent_snoc (tr : list event) (e : event) :
  signals_sent (tr ++ [e])
  = signals_sent tr ++ match killpg_of e with Some x => [x] | None => [] end.
Proof.
  unfold signals_sent. rewrite omap_app. f_equal.
Qed.

Lemma sent_sys l {A} (c : call A) :
  killpg_of (Ev c) = None → stable (sent l) (sys handle c).
Proof.
  intros Hc st H. unfold sys, sent in *.
  destruct (handle A c (os st)). cbn [snd trace].
  by rewrite signals_sent_snoc, Hc, app_nil_r.
Qed.

Lemma sent_modify_self l g : stable (sent l) (modify_self (world:=world) g).
Proof. by intros st H. Qed.

Lemma sent_modify_globals l g :
  stable (sent l) (modify_globals (world:=world) g).
Proof. by intros st H. Qed.

Lemma self_is_sys c0 {A} (c : call A) : stable (self_is c0) (sys handle c).
Proof. intros st H. unfold sys. by destruct (handle A c (os st)). Qed.

Lemma self_is_modify_globals c0 g :
  stable (self_is c0) (modify_globals (world:=world) g).
Proof. by intros st H. Qed.

Ltac stable_step :=
  lazymatch goal with
  | |- stable _ (bind _ _) => apply stable_bind; [|intros ?]
  | |- stable _ (pure _) => apply stable_pure
  | |- stable _ (raise _) => apply stable_raise
  | |- stable _ (lift _) => apply stable_lift
  | |- stable _ get_self => apply stable_get_self
  | |- stable _ get_globals => apply stable_get_globals
  | |- stable _ (assert_some _) => apply stable_assert_some
  | |- stable _ (try_except _ _) => apply stable_try_except; [|intros ?]
  | |- stable _ (try_finally _ _) => apply stable_try_finally
  | |- stable _ (mapM _ _) => apply stable_mapM; intros ?
  | |- stable forked_set (sys _ _) => apply forked_sys
  | |- stable forked_set (modify_self _) =>
      apply forked_modify_self; intros []; reflexivity
  | |- stable forked_set (modify_globals _) => apply forked_modify_globals
  | |- stable (sent _) (sys _ _) => apply sent_sys; reflexivity
  | |- stable (sent _) (modify_self _) => apply sent_modify_self
  | |- stable (sent _) (modify_globals _) => apply sent_modify_globals
  | |- stable (self_is _) (sys _ _) => apply self_is_sys
  | |- stable (self_is _) (modify_globals _) => apply self_is_modify_globals
  | |- stable _ (match ?x with _ => _ end) => destruct x
  end.

Lemma forked_final_env : stable forked_set (final_env handle K).
Proof.
  unfold final_env, final_env_layers, default_env, process_env.
  repeat stable_step.
Qed.

Lemma forked_openpty : stable forked_set (openpty handle).
Proof. unfold openpty. repeat stable_step. Qed.

(** Whatever the first call of [fork] does after raising the flag, the
    flag stays up. *)
Lemma fork_sets_forked st :
  forked_set (fork handle K delete_env_var_str st).2.
Proof.
  unfold fork. rewrite run_get_self.
  destruct (forked (self st)) eqn:Hf; [done|].
  rewrite run_modify_self.
  match goal with
  | |- forked_set (?m ?st0).2 =>
      cut (stable forked_set m); [intros H; by apply H|]
  end.
  pose proof forked_final_env. pose proof forked_openpty.
  repeat first [assumption | stable_step].
Qed.

Lemma fork_when_forked st :
  forked_set st → fork handle K delete_env_var_str st = (Ok None, st).
Proof. intros H. unfold fork. rewrite run_get_self. by rewrite H. Qed.

(** C1: once [fork] has been called, whether that call returned a pid
    or raised, the next call returns [None] and leaves the state as it
    found it: no field of the [Child] changes, and the trace gains no
    call, so no pty is opened, no environment built and nothing
    spawned.  In a world where [spawn] works the first call returns pid
    100 on master fd 5 and the second [None]; in a world without ptys
    the first call raises and the second returns [None]. *)
Theorem fork_twice :
  (∀ st,
      let st1 := (fork handle K delete_env_var_str st).2 in
      fork handle K delete_env_var_str st1 = (Ok None, st1))
  ∧ ((fork (answer launching) linux [] fresh_start).1 = Ok (Some 100)
     ∧ pid (self after_first_fork) = Some 100
     ∧ child_fd (self after_first_fork) = Some 5
     ∧ fork (answer launching) linux [] after_first_fork
       = (Ok None, after_first_fork))
  ∧ ((fork (answer quiet) linux [] fresh_start).1 = Raise OSError
     ∧ fork (answer quiet) linux [] after_failed_fork
       = (Ok None, after_failed_fork)).
Proof.
  split; [|repeat split; vm_compute; reflexivity].
  intros st st1. apply fork_when_forked, fork_sets_forked.
Qed.

(** *** Computations that never raise *)

Lemma no_raise_pure {A} (a : A) : no_raise (pure (world:=world) a).
Proof. intros st. by eexists. Qed.

Lemma no_raise_get_self : no_raise (get_self (world:=world)).
Proof. intros st. by eexists. Qed.

Lemma no_raise_get_globals : no_raise (get_globals (world:=world)).
Proof. intros st. by eexists. Qed.

Lemma no_raise_modify_globals g : no_raise (modify_globals (world:=world) g).
Proof. intros st. by eexists. Qed.

Lemma no_raise_bind {A B} (m : M world A) (f : A -> M world B) :
  no_raise m → (∀ a, no_raise (f a)) → no_raise (bind m f).
Proof.
  intros Hm Hf st. unfold bind. destruct (Hm st) as [a Ha].
  destruct (m st) as [r st']. simpl in Ha. subst r. apply Hf.
Qed.

Lemma no_raise_try_except {A} (m : M world A) h :
  (∀ e, no_raise (h e)) → no_raise (try_except m h).
Proof.
  intros Hh st. unfold try_except.
  destruct (m st) as [[a|e] st']; [by eexists|apply Hh].
Qed.

Lemma no_raise_mapM {A B} (f : A -> M world B) (l : list A) :
  (∀ a, no_raise (f a)) → no_raise (mapM f l).
Proof.
  intros Hf. induction l as [|x l IH]; simpl.
  - apply no_raise_pure.
  - apply no_raise_bind; [done|]. intros y.
    apply no_raise_bind; [done|]. intros ys. apply no_raise_pure.
Qed.

Ltac no_raise_step :=
  lazymatch goal with
  | |- no_raise (bind _ _) => apply no_raise_bind; [|intros ?]
  | |- no_raise (pure _) => apply no_raise_pure
  | |- no_raise get_self => apply no_raise_get_self
  | |- no_raise get_globals => apply no_raise_get_globals
  | |- no_raise (modify_globals _) => apply no_raise_modify_globals
  | |- no_raise (try_except _ _) => apply no_raise_try_except; intros ?
  | |- no_raise (mapM _ _) => apply no_raise_mapM; intros ?
  | |- no_raise (match ?x with _ => _ end) => destruct x
  end.

Lemma processes_in_group_no_raise grp :
  no_raise (processes_in_group handle grp).
Proof. unfold processes_in_group. repeat no_raise_step. Qed.

Lemma cmdline_of_prewarmer_no_raise : no_raise (cmdline_of_prewarmer handle).
Proof. unfold cmdline_of_prewarmer. repeat no_raise_step. Qed.

Lemma Child_cmdline_of_pid_no_raise p :
  no_raise (Child_cmdline_of_pid handle p).
Proof.
  pose proof cmdline_of_prewarmer_no_raise.
  unfold Child_cmdline_of_pid. repeat first [assumption | no_raise_step].
Qed.

Lemma process_desc_no_raise p : no_raise (process_desc handle p).
Proof. unfold process_desc. repeat no_raise_step. Qed.

Lemma get_pid_for_cwd_no_raise oldest :
  no_raise (get_pid_for_cwd handle oldest).
Proof. unfold get_pid_for_cwd. repeat no_raise_step. Qed.

Lemma foreground_environ_no_raise : no_raise (foreground_environ handle).
Proof.
  pose proof (get_pid_for_cwd_no_raise false).
  unfold foreground_environ, pid_for_cwd.
  repeat first [assumption | no_raise_step].
Qed.

(** *** [get_pid_for_cwd] *)

Lemma py_max_spec (l : list Z) (x : Z) :
  py_max x l ∈ x :: l ∧ Forall (λ p, p <= py_max x l) (x :: l).
Proof.
  unfold py_max. revert x. induction l as [|y l IH]; intros x; simpl.
  - split; [apply list_elem_of_here|]. constructor; [lia|constructor].
  - destruct (IH (Z.max x y)) as [Hin Hall]. split.
    + apply elem_of_cons in Hin as [Hin|Hin].
      * rewrite Hin. destruct (Z.max_spec x y) as [[_ ->]|[_ ->]].
        -- apply list_elem_of_further, list_elem_of_here.
        -- apply list_elem_of_here.
      * by do 2 apply list_elem_of_further.
    + apply Forall_cons in Hall as [Hm Hall].
      repeat constructor; [lia|lia|done].
Qed.

Lemma py_min_spec (l : list Z) (x : Z) :
  py_min x l ∈ x :: l ∧ Forall (λ p, py_min x l <= p) (x :: l).
Proof.
  unfold py_min. revert x. induction l as [|y l IH]; intros x; simpl.
  - split; [apply list_elem_of_here|]. constructor; [lia|constructor].
  - destruct (IH (Z.min x y)) as [Hin Hall]. split.
    + apply elem_of_cons in Hin as [Hin|Hin].
      * rewrite Hin. destruct (Z.min_spec x y) as [[_ ->]|[_ ->]].
        -- apply list_elem_of_here.
        -- apply list_elem_of_further, list_elem_of_here.
      * by do 2 apply list_elem_of_further.
    + apply Forall_cons in Hall as [Hm Hall].
      repeat constructor; [lia|lia|done].
Qed.

(** C6: when the terminal reports a foreground group and the group has
    members, [get_pid_for_cwd] returns the largest member by default and
    the smallest when the oldest is asked for.  With the pids 101, 150
    and 99 in the group, that is 150 and 99. *)
Theorem get_pid_for_cwd_max_min :
  (∀ st fd pgrp st1 pids st2,
      child_fd (self st) = Some fd →
      sys handle (Tcgetpgrp fd) st = (Ok pgrp, st1) →
      0 <= pgrp →
      processes_in_group handle pgrp st1 = (Ok pids, st2) →
      pids ≠ [] →
      ∃ newest oldest : Z,
        get_pid_for_cwd handle false st = (Ok (Some newest), st2)
        ∧ get_pid_for_cwd handle true st = (Ok (Some oldest), st2)
        ∧ newest ∈ pids ∧ Forall (λ p, p <= newest) pids
        ∧ oldest ∈ pids ∧ Forall (λ p, oldest <= p) pids)
  ∧ (processes_in_group (answer quiet) 7 quiet_after_tcgetpgrp).1
    = Ok [101; 150; 99]
  ∧ (get_pid_for_cwd (answer quiet) false quiet_start).1 = Ok (Some 150)
  ∧ (get_pid_for_cwd (answer quiet) true quiet_start).1 = Ok (Some 99).
Proof.
  split; [|repeat split; vm_compute; reflexivity].
  intros st fd pgrp st1 pids st2 Hfd Hsys Hpos Hgrp Hne.
  destruct pids as [|x l]; [done|].
  exists (py_max x l), (py_min x l).
  destruct (py_max_spec l x) as [? ?], (py_min_spec l x) as [? ?].
  repeat split; try done.
  - unfold get_pid_for_cwd, bind, try_except, get_self, assert_some, pure.
    rewrite Hfd, Hsys. destruct (Z.leb_spec 0 pgrp); [|lia].
    by rewrite Hgrp.
  - unfold get_pid_for_cwd, bind, try_except, get_self, assert_some, pure.
    rewrite Hfd, Hsys. destruct (Z.leb_spec 0 pgrp); [|lia].
    by rewrite Hgrp.
Qed.

(** C10: without a terminal, when the query for the foreground group
    fails or reports a negative group, or when the group has no
    members, [get_pid_for_cwd] returns the [pid] field of the [Child]. *)
Theorem get_pid_for_cwd_fallback st oldest :
  no_foreground_group handle st →
  (get_pid_for_cwd handle oldest st).1 = Ok (pid (self st)).
Proof.
  intros H. unfold get_pid_for_cwd.
  set (inner := try_except _ _).
  assert (stable (self_is (self st)) inner) as Hself
    by (unfold inner, processes_in_group; repeat stable_step).
  assert (∃ st', inner st = (Ok None, st')) as [st' Hst'].
  { unfold inner, bind, try_except, get_self, assert_some, pure, raise.
    destruct H as [Hfd|(fd & Hfd & [[e He]|(pgrp & st1 & Hsys & Hgrp)])];
      rewrite Hfd.
    - by eexists.
    - apply sys_raise in He as [st' ->]. by eexists.
    - rewrite Hsys. destruct (Z.leb_spec 0 pgrp).
      + destruct Hgrp as [?|Hgrp]; [lia|].
        destruct (processes_in_group handle pgrp st1) as [r st2].
        simpl in Hgrp. subst r. by eexists.
      + by eexists. }
  specialize (Hself st eq_refl). rewrite Hst' in Hself.
  rewrite (run_bind _ _ _ _ _ Hst'), run_get_self. simpl.
  by rewrite Hself.
Qed.

(** *** The introspection accessors *)

Lemma sys_self {A} (c : call A) st : self (sys handle c st).2 = self st.
Proof. unfold sys. by destruct (handle A c (os st)). Qed.

(** X27: a failed scan of the process table, with no cached map,
    leaves every group without members: [processes_in_group] returns
    the empty list instead of raising. *)
Lemma processes_in_group_scan_failure grp st e :
  cached_map (globals st) = None →
  (sys handle Process_group_map st).1 = Raise e →
  (processes_in_group handle grp st).1 = Ok [].
Proof.
  intros Hc [st' Hs]%sys_raise.
  unfold processes_in_group, bind, try_except, get_globals, pure.
  by rewrite Hc, Hs.
Qed.

Lemma cmdline_no_raise : no_raise (cmdline handle).
Proof. unfold cmdline. repeat no_raise_step. Qed.

Lemma environ_no_raise : no_raise (environ handle).
Proof. unfold environ. repeat no_raise_step. Qed.

Lemma current_cwd_no_raise : no_raise (current_cwd handle).
Proof. unfold current_cwd. repeat no_raise_step. Qed.

Lemma foreground_processes_no_raise : no_raise (foreground_processes handle).
Proof. unfold foreground_processes. repeat no_raise_step. Qed.

Lemma cmdline_fallback st :
  (pid (self st) = None
   ∨ ∃ p e, pid (self st) = Some p
       ∧ (sys handle (Cmdline_of_pid p) st).1 = Raise e) →
  (cmdline handle st).1 = Ok (argv (self st)).
Proof.
  intros [Hpid|(p & e & Hpid & [st' Hs]%sys_raise)];
    unfold cmdline, Child_cmdline_of_pid, bind, try_except, get_self,
      assert_some, pure, raise; rewrite Hpid; [done|].
  rewrite Hs. cbn [truthy negb].
  pose proof (sys_self (Cmdline_of_pid p) st) as Hself.
  rewrite Hs in Hself. simpl in Hself.
  rewrite Hself, Hpid, bool_decide_eq_true_2 by done.
  by destruct (argv (self st)).
Qed.

Lemma environ_fallback st :
  (pid (self st) = None
   ∨ ∃ p e, pid (self st) = Some p
       ∧ (sys handle (Environ_of_process p) st).1 = Raise e) →
  (environ handle st).1 = Ok [].
Proof.
  intros [Hpid|(p & e & Hpid & [st' Hs]%sys_raise)];
    unfold environ, environ_of_process, bind, try_except, get_self,
      assert_some, pure, raise; rewrite Hpid; [done|].
  by rewrite Hs.
Qed.

Lemma current_cwd_fallback st :
  (pid (self st) = None
   ∨ ∃ p e, pid (self st) = Some p
       ∧ (sys handle (Cwd_of_process p) st).1 = Raise e) →
  (current_cwd handle st).1 = Ok None.
Proof.
  intros [Hpid|(p & e & Hpid & [st' Hs]%sys_raise)];
    unfold current_cwd, bind, try_except, get_self,
      assert_some, pure, raise; rewrite Hpid; [done|].
  by rewrite Hs.
Qed.

Lemma foreground_processes_fallback st :
  no_foreground_group handle st →
  (foreground_processes handle st).1 = Ok [].
Proof.
  intros H.
  unfold foreground_processes, bind, try_except, get_self, pure.
  destruct H as [Hfd|(fd & Hfd & [[e He]|(pgrp & st1 & Hsys & Hgrp)])];
    rewrite Hfd.
  - done.
  - apply sys_raise in He as [st' ->]. done.
  - rewrite Hsys. destruct (Z.leb_spec 0 pgrp).
    + destruct Hgrp as [?|Hgrp]; [lia|].
      destruct (processes_in_group handle pgrp st1) as [r st2].
      simpl in Hgrp. by subst r.
    + done.
Qed.

Lemma sys_result {A} (c : call A) st :
  (sys handle c st).1 = (handle A c (os st)).1.
Proof. unfold sys. by destruct (handle A c (os st)). Qed.

Lemma self_is_cmdline_of_prewarmer c0 :
  stable (self_is c0) (cmdline_of_prewarmer handle).
Proof. unfold cmdline_of_prewarmer. repeat stable_step. Qed.

Lemma self_is_Child_cmdline_of_pid c0 p :
  stable (self_is c0) (Child_cmdline_of_pid handle p).
Proof.
  pose proof (self_is_cmdline_of_prewarmer c0).
  unfold Child_cmdline_of_pid. repeat first [assumption | stable_step].
Qed.

Lemma self_is_processes_in_group c0 grp :
  stable (self_is c0) (processes_in_group handle grp).
Proof. unfold processes_in_group. repeat stable_step. Qed.

(** When the command line of [p] cannot be read, [Child.cmdline_of_pid]
    answers with [argv] for the child's own pid and with the empty list
    for any other. *)
Lemma Child_cmdline_of_pid_fallback st p e :
  (sys handle (Cmdline_of_pid p) st).1 = Raise e →
  (Child_cmdline_of_pid handle p st).1
  = Ok (if bool_decide (Some p = pid (self st)) then argv (self st) else []).
Proof.
  intros [st' Hs]%sys_raise.
  pose proof (sys_self (Cmdline_of_pid p) st) as Hself.
  rewrite Hs in Hself. simpl in Hself.
  unfold Child_cmdline_of_pid, bind, try_except, get_self, pure.
  rewrite Hs. cbn [truthy negb]. rewrite Hself.
  by destruct (bool_decide (Some p = pid (self st))).
Qed.

(** One descriptor: it is always produced, for the pid asked about,
    with a command line and without an empty working directory; a
    command line that cannot be read is replaced by its fallback and a
    working directory that cannot be read by [None], each on its own. *)
Lemma process_desc_spec st p :
  ∃ d st',
    process_desc handle p st = (Ok d, st')
    ∧ self st' = self st
    ∧ pd_pid d = p
    ∧ is_Some (pd_cmdline d)
    ∧ pd_cwd d ≠ Some []
    ∧ ((∃ e, (sys handle (Cmdline_of_pid p) st).1 = Raise e) →
       pd_cmdline d
       = Some (if bool_decide (Some p = pid (self st))
               then argv (self st) else []))
    ∧ ((∃ e, (sys handle (Cwd_of_process p)
                (Child_cmdline_of_pid handle p st).2).1 = Raise e) →
       pd_cwd d = None).
Proof.
  destruct (Child_cmdline_of_pid_no_raise p st) as [x Hx].
  pose proof (self_is_Child_cmdline_of_pid (self st) p st eq_refl) as Hself.
  pose proof (Child_cmdline_of_pid_fallback st p) as Hfall.
  destruct (Child_cmdline_of_pid handle p st) as [r st1] eqn:Hc.
  simpl in Hx, Hself, Hfall. subst r. unfold self_is in Hself.
  pose proof (sys_self (Cwd_of_process p) st1) as Hself2.
  unfold process_desc, bind, try_except. rewrite Hc. cbn [pure snd].
  destruct (sys handle (Cwd_of_process p) st1) as [[y|e'] st2];
    simpl in Hself2; eexists _, _; (split; [reflexivity|]); cbn;
    (split; [congruence|]); (split; [done|]); (split; [by eexists|]).
  - split; [by destruct y|]. split.
    + intros [e He]. specialize (Hfall e He). congruence.
    + by intros [e He].
  - split; [done|]. split; [|done].
    intros [e He]. specialize (Hfall e He). congruence.
Qed.

(** The descriptors of a list of pids: one for each, in order, each
    with its fallbacks. *)
Lemma mapM_process_desc (members : list Z) st :
  ∃ l st',
    mapM (process_desc handle) members st = (Ok l, st')
    ∧ self st' = self st
    ∧ map pd_pid l = members
    ∧ Forall
        (λ d,
           is_Some (pd_cmdline d)
           ∧ pd_cwd d ≠ Some []
           ∧ ((∀ w, ∃ e, (handle _ (Cmdline_of_pid (pd_pid d)) w).1 = Raise e) →
              pd_cmdline d
              = Some (if bool_decide (Some (pd_pid d) = pid (self st))
                      then argv (self st) else []))
           ∧ ((∀ w, ∃ e, (handle _ (Cwd_of_process (pd_pid d)) w).1 = Raise e) →
              pd_cwd d = None)) l.
Proof.
  revert st. induction members as [|p members IH]; intros st.
  - exists [], st. by repeat split.
  - destruct (process_desc_spec st p)
      as (d & st1 & Hd & Hs1 & Hp & Hcmd & Hcwd & Hfc & Hfw).
    destruct (IH st1) as (l & st2 & Hl & Hs2 & Hpids & Hall).
    exists (d :: l), st2. cbn [mapM].
    rewrite (run_bind _ _ _ _ _ Hd), (run_bind _ _ _ _ _ Hl).
    split; [reflexivity|]. split; [congruence|].
    split; [simpl; congruence|].
    constructor.
    + split; [done|]. split; [done|]. rewrite Hp. split.
      * intros Hw. apply Hfc. rewrite sys_result. apply Hw.
      * intros Hw. apply Hfw. rewrite sys_result. apply Hw.
    + by rewrite <- Hs1.
Qed.

(** C9, as the code has it: the four accessors return a value in every
    state.  When the [Child] has no pid or its own entry cannot be read,
    [cmdline] gives [argv], [environ] the empty mapping and
    [current_cwd] [None].  [foreground_processes] gives the empty list
    when the foreground group cannot be determined or is empty.  When
    the group has members, every member stays in the list, in order,
    whatever can be read of it: a member whose command line cannot be
    read has the empty command line ([argv] for the child's own pid),
    and a member whose working directory cannot be read has no cwd, the
    one independently of the other.  The same holds of a single
    descriptor for the two queries as they are answered when it is
    built. *)
Theorem accessors_fallback st :
  ((∃ v, (cmdline handle st).1 = Ok v)
   ∧ (∃ v, (environ handle st).1 = Ok v)
   ∧ (∃ v, (current_cwd handle st).1 = Ok v)
   ∧ (∃ v, (foreground_processes handle st).1 = Ok v))
  ∧ ((pid (self st) = None
      ∨ ∃ p e, pid (self st) = Some p
          ∧ (sys handle (Cmdline_of_pid p) st).1 = Raise e) →
     (cmdline handle st).1 = Ok (argv (self st)))
  ∧ ((pid (self st) = None
      ∨ ∃ p e, pid (self st) = Some p
          ∧ (sys handle (Environ_of_process p) st).1 = Raise e) →
     (environ handle st).1 = Ok [])
  ∧ ((pid (self st) = None
      ∨ ∃ p e, pid (self st) = Some p
          ∧ (sys handle (Cwd_of_process p) st).1 = Raise e) →
     (current_cwd handle st).1 = Ok None)
  ∧ (no_foreground_group handle st →
     (foreground_processes handle st).1 = Ok [])
  ∧ (∀ fd pgrp st1 members st2,
       child_fd (self st) = Some fd →
       sys handle (Tcgetpgrp fd) st = (Ok pgrp, st1) →
       0 <= pgrp →
       processes_in_group handle pgrp st1 = (Ok members, st2) →
       ∃ l,
         (foreground_processes handle st).1 = Ok l
         ∧ map pd_pid l = members
         ∧ Forall
             (λ d,
                is_Some (pd_cmdline d)
                ∧ pd_cwd d ≠ Some []
                ∧ ((∀ w, ∃ e,
                      (handle _ (Cmdline_of_pid (pd_pid d)) w).1 = Raise e) →
                   pd_cmdline d
                   = Some (if bool_decide (Some (pd_pid d) = pid (self st))
                           then argv (self st) else []))
                ∧ ((∀ w, ∃ e,
                      (handle _ (Cwd_of_process (pd_pid d)) w).1 = Raise e) →
                   pd_cwd d = None)) l)
  ∧ (∀ p, ∃ d,
       (process_desc handle p st).1 = Ok d
       ∧ pd_pid d = p
       ∧ ((∃ e, (sys handle (Cmdline_of_pid p) st).1 = Raise e) →
          pd_cmdline d
          = Some (if bool_decide (Some p = pid (self st))
                  then argv (self st) else []))
       ∧ ((∃ e, (sys handle (Cwd_of_process p)
                   (Child_cmdline_of_pid handle p st).2).1 = Raise e) →
          pd_cwd d = None)).
Proof.
  split; [|split; [|split; [|split; [|split; [|split]]]]].
  - split; [apply cmdline_no_raise|].
    split; [apply environ_no_raise|].
    split; [apply current_cwd_no_raise|apply foreground_processes_no_raise].
  - apply cmdline_fallback.
  - apply environ_fallback.
  - apply current_cwd_fallback.
  - apply foreground_processes_fallback.
  - intros fd pgrp st1 members st2 Hfd Hsys Hpos Hgrp.
    pose proof (sys_self (Tcgetpgrp fd) st) as Hs1.
    rewrite Hsys in Hs1. simpl in Hs1.
    pose proof (self_is_processes_in_group (self st1) pgrp st1 eq_refl)
      as Hs2.
    rewrite Hgrp in Hs2. unfold self_is in Hs2. simpl in Hs2.
    destruct (mapM_process_desc members st2) as (l & st3 & Hl & _ & Hpids & Hall).
    exists l. split; [|split; [done|]].
    + unfold foreground_processes. rewrite run_get_self, Hfd.
      unfold try_except. rewrite (run_bind _ _ _ _ _ Hsys).
      destruct (Z.leb_spec 0 pgrp); [|lia].
      by rewrite (run_bind _ _ _ _ _ Hgrp), Hl.
    + by rewrite Hs2, Hs1 in Hall.
  - intros p.
    destruct (process_desc_spec st p)
      as (d & st1 & Hd & _ & Hp & _ & _ & Hfc & Hfw).
    exists d. by rewrite Hd.
Qed.

(** *** [final_env] *)



Lemma dict_get_None {V} k (d : dict str V) :
  k ∉ dict_keys d → dict_get k d = None.
Proof.
  induction d as [|[k' v'] d IH]; simpl; [done|].
  intros [? ?]%not_elem_of_cons. rewrite decide_False by done. by apply IH.
Qed.

Lemma dict_get_pop_ne {V} k k' (d : dict str V) :
  k ≠ k' → dict_get k (dict_pop k' d) = dict_get k d.
Proof.
  intros Hne. induction d as [|[k0 v0] d IH]; simpl; [done|].
  destruct (decide (k0 = k')) as [->|?]; simpl.
  - by rewrite decide_False.
  - by rewrite IH.
Qed.



(** *** [send_signal_for_key] *)

Lemma sys_trace {A} (c : call A) st r st' :
  sys handle c st = (r, st') → trace st' = trace st ++ [Ev c].
Proof.
  unfold sys. destruct (handle A c (os st)). by intros [= _ <-].
Qed.

Lemma sent_terminal_attributes l fd :
  stable (sent l) (terminal_attributes handle fd).
Proof.
  unfold terminal_attributes, foreground_environ, pid_for_cwd,
    get_pid_for_cwd, processes_in_group, environ_of_process.
  repeat stable_step.
Qed.

Lemma signal_for_key_spec (cc : Z → Z) (key_num : Z) :
  (key_num = cc (VINTR K) → signal_for_key K cc key_num = Some SIGINT)
  ∧ (key_num ≠ cc (VINTR K) → key_num = cc (VSUSP K) →
     signal_for_key K cc key_num = Some SIGTSTP)
  ∧ (key_num ≠ cc (VINTR K) → key_num ≠ cc (VSUSP K) →
     key_num = cc (VQUIT K) →
     signal_for_key K cc key_num = Some SIGQUIT)
  ∧ (key_num ≠ cc (VINTR K) → key_num ≠ cc (VSUSP K) →
     key_num ≠ cc (VQUIT K) →
     signal_for_key K cc key_num = None).
Proof.
  unfold signal_for_key.
  destruct (Z.eqb_spec key_num (cc (VINTR K))),
    (Z.eqb_spec key_num (cc (VSUSP K))),
    (Z.eqb_spec key_num (cc (VQUIT K))); repeat split; intros; congruence.
Qed.

(** C8, as the code has it.  For a [Child] with a terminal whose
    attributes can be read, reading them delivers no signal.  With ISIG
    off, or with a key that is none of the three control characters,
    the call returns [False] and does nothing further.  With ISIG on,
    the first of VINTR, VSUSP, VQUIT that equals the key selects SIGINT,
    SIGTSTP or SIGQUIT; when the foreground group can be read and
    [killpg] succeeds, that signal is delivered once, to that group, and
    the call returns [True]. *)
Theorem send_signal_for_key_spec st fd t st1 key_num :
  child_fd (self st) = Some fd →
  terminal_attributes handle fd st = (Ok t, st1) →
  signals_sent (trace st1) = signals_sent (trace st)
  ∧ (Z.land (c_lflag t) (ISIG K) = 0 →
     send_signal_for_key handle K key_num st = (Ok false, st1))
  ∧ (Z.land (c_lflag t) (ISIG K) ≠ 0 →
     (signal_for_key K (c_cc t) key_num = None →
      send_signal_for_key handle K key_num st = (Ok false, st1))
     ∧ (∀ sg pgrp st2 st3,
          signal_for_key K (c_cc t) key_num = Some sg →
          sys handle (Tcgetpgrp fd) st1 = (Ok pgrp, st2) →
          sys handle (Killpg pgrp sg) st2 = (Ok tt, st3) →
          send_signal_for_key handle K key_num st = (Ok true, st3)
          ∧ signals_sent (trace st3)
            = signals_sent (trace st) ++ [(pgrp, sg)]))
  ∧ ((key_num = c_cc t (VINTR K) →
      signal_for_key K (c_cc t) key_num = Some SIGINT)
     ∧ (key_num ≠ c_cc t (VINTR K) → key_num = c_cc t (VSUSP K) →
        signal_for_key K (c_cc t) key_num = Some SIGTSTP)
     ∧ (key_num ≠ c_cc t (VINTR K) → key_num ≠ c_cc t (VSUSP K) →
        key_num = c_cc t (VQUIT K) →
        signal_for_key K (c_cc t) key_num = Some SIGQUIT)
     ∧ (key_num ≠ c_cc t (VINTR K) → key_num ≠ c_cc t (VSUSP K) →
        key_num ≠ c_cc t (VQUIT K) →
        signal_for_key K (c_cc t) key_num = None)).
Proof.
  intros Hfd Hattr.
  assert (signals_sent (trace st1) = signals_sent (trace st)) as Hsent.
  { pose proof (sent_terminal_attributes _ fd st eq_refl) as H.
    by rewrite Hattr in H. }
  assert (send_signal_for_key handle K key_num st
               = (if Z.land (c_lflag t) (ISIG K) =? 0 then pure false
                  else match signal_for_key K (c_cc t) key_num with
                       | None => pure false
                       | Some sg =>
                           bind (sys handle (Tcgetpgrp fd)) (λ pgrp,
                             bind (sys handle (Killpg pgrp sg)) (λ _,
                               pure true))
                       end) st1) as Hrun.
  { unfold send_signal_for_key. rewrite run_get_self, Hfd.
    by rewrite (run_bind _ _ _ _ _ Hattr). }
  split; [done|]. split; [|split; [|apply signal_for_key_spec]].
  - intros Hoff. rewrite Hrun.
    by destruct (Z.eqb_spec (Z.land (c_lflag t) (ISIG K)) 0).
  - intros Hon. rewrite Hrun.
    destruct (Z.eqb_spec (Z.land (c_lflag t) (ISIG K)) 0); [done|].
    split.
    + by intros ->.
    + intros sg pgrp st2 st3 -> Hgrp Hkill.
      rewrite (run_bind _ _ _ _ _ Hgrp), (run_bind _ _ _ _ _ Hkill).
      split; [done|].
      rewrite (sys_trace _ _ _ _ Hkill), (sys_trace _ _ _ _ Hgrp).
      by rewrite !signals_sent_snoc, Hsent, app_nil_r.
Qed.

End ProgramProperties.

(** ** The theorems at concrete states *)

Lemma get_pid_for_cwd_max_min_witness :
  child_fd (self quiet_start) = Some 5
  ∧ sys (answer quiet) (Tcgetpgrp 5) quiet_start
    = (Ok 7, quiet_after_tcgetpgrp)
  ∧ 0 <= 7
  ∧ processes_in_group (answer quiet) 7 quiet_after_tcgetpgrp
    = (Ok [101; 150; 99], quiet_after_scan)
  ∧ [101; 150; 99] ≠ []
  ∧ ∃ newest oldest : Z,
      get_pid_for_cwd (answer quiet) false quiet_start
      = (Ok (Some newest), quiet_after_scan)
      ∧ get_pid_for_cwd (answer quiet) true quiet_start
        = (Ok (Some oldest), quiet_after_scan)
      ∧ newest ∈ [101; 150; 99] ∧ Forall (λ p, p <= newest) [101; 150; 99]
      ∧ oldest ∈ [101; 150; 99] ∧ Forall (λ p, oldest <= p) [101; 150; 99].
Proof.
  split; [reflexivity|]. split; [reflexivity|]. split; [lia|].
  split; [vm_compute; reflexivity|]. split; [discriminate|].
  apply (proj1 (get_pid_for_cwd_max_min (answer quiet))
           quiet_start 5 7 quiet_after_tcgetpgrp).
  - reflexivity.
  - reflexivity.
  - lia.
  - vm_compute. reflexivity.
  - discriminate.
Defined.

Lemma get_pid_for_cwd_fallback_witness :
  (no_foreground_group (answer quiet) fresh_start
   ∧ (get_pid_for_cwd (answer quiet) false fresh_start).1 = Ok None)
  ∧ pid (self quiet_start) = Some 100
  ∧ (no_foreground_group (answer tty_query_fails) quiet_start
     ∧ (get_pid_for_cwd (answer tty_query_fails) false quiet_start).1
       = Ok (Some 100))
  ∧ (no_foreground_group (answer negative_group) quiet_start
     ∧ (get_pid_for_cwd (answer negative_group) true quiet_start).1
       = Ok (Some 100))
  ∧ (no_foreground_group (answer empty_group) quiet_start
     ∧ (get_pid_for_cwd (answer empty_group) false quiet_start).1
       = Ok (Some 100)).
Proof.
  assert (no_foreground_group (answer quiet) fresh_start) as H0
    by (left; reflexivity).
  assert (no_foreground_group (answer tty_query_fails) quiet_start) as H1.
  { right. exists 5. split; [reflexivity|]. left. by exists OSError. }
  assert (no_foreground_group (answer negative_group) quiet_start) as H2.
  { right. exists 5. split; [reflexivity|]. right.
    eexists (-1), _. split; [reflexivity|]. left. lia. }
  assert (no_foreground_group (answer empty_group) quiet_start) as H3.
  { right. exists 5. split; [reflexivity|]. right.
    eexists 7, _. split; [reflexivity|]. right. vm_compute. reflexivity. }
  split; [split; [exact H0|]|].
  { exact (get_pid_for_cwd_fallback (answer quiet) fresh_start false H0). }
  split; [reflexivity|].
  split; [split; [exact H1|]|].
  { exact (get_pid_for_cwd_fallback (answer tty_query_fails)
             quiet_start false H1). }
  split; [split; [exact H2|]|split; [exact H3|]].
  - exact (get_pid_for_cwd_fallback (answer negative_group)
             quiet_start true H2).
  - exact (get_pid_for_cwd_fallback (answer empty_group)
             quiet_start false H3).
Defined.

Lemma accessors_fallback_witness :
  child_fd (self quiet_start) = Some 5
  ∧ sys (answer cwd_readable) (Tcgetpgrp 5) quiet_start
    = (Ok 7, quiet_after_tcgetpgrp)
  ∧ (processes_in_group (answer cwd_readable) 7 quiet_after_tcgetpgrp).1
    = Ok [101; 150; 99]
  ∧ (∀ p w, ∃ e, (answer cwd_readable _ (Cmdline_of_pid p) w).1 = Raise e)
  ∧ ∃ l,
      (foreground_processes (answer cwd_readable) quiet_start).1 = Ok l
      ∧ map pd_pid l = [101; 150; 99]
      ∧ Forall (λ d, pd_cmdline d
                     = Some (if bool_decide (Some (pd_pid d) = Some 100)
                             then [s "/bin/sh"] else [])
                     ∧ pd_cwd d ≠ Some []) l.
Proof.
  assert (∀ p w, ∃ e,
            (answer cwd_readable _ (Cmdline_of_pid p) w).1 = Raise e) as Hcmd
    by (intros p w; by exists OSError).
  split; [reflexivity|]. split; [reflexivity|].
  split; [vm_compute; reflexivity|]. split; [exact Hcmd|].
  destruct (processes_in_group (answer cwd_readable) 7 quiet_after_tcgetpgrp)
    as [[members|x] st2] eqn:Hgrp.
  2:{ vm_compute in Hgrp. discriminate. }
  assert (members = [101; 150; 99]) as Hm
    by (vm_compute in Hgrp; congruence).
  destruct (proj1 (proj2 (proj2 (proj2 (proj2 (proj2
              (accessors_fallback (answer cwd_readable) quiet_start))))))
              5 7 quiet_after_tcgetpgrp members st2
              eq_refl eq_refl ltac:(lia) Hgrp) as (l & Hl & Hpids & Hall).
  exists l. split; [exact Hl|]. split; [by rewrite <- Hm|].
  eapply Forall_impl; [exact Hall|].
  intros d (_ & Hcwd & Hc & _). split; [|exact Hcwd].
  exact (Hc (Hcmd (pd_pid d))).
Defined.

Lemma send_signal_for_key_spec_witness :
  child_fd (self quiet_start) = Some 5
  ∧ terminal_attributes (answer quiet) 5 quiet_start
    = (Ok usual_tty, quiet_after_attributes)
  ∧ send_signal_for_key (answer quiet) linux 3 quiet_start
    = (Ok true, quiet_after_killpg)
  ∧ signals_sent (trace quiet_after_killpg) = [(7, SIGINT)].
Proof.
  assert (terminal_attributes (answer quiet) 5 quiet_start
          = (Ok usual_tty, quiet_after_attributes)) as Hattr
    by (vm_compute; reflexivity).
  split; [reflexivity|]. split; [exact Hattr|].
  destruct (send_signal_for_key_spec (answer quiet) linux quiet_start 5
              usual_tty quiet_after_attributes 3 eq_refl Hattr)
    as (_ & _ & Hon & _).
  destruct Hon as [_ Hsig]; [discriminate|].
  apply (Hsig SIGINT 7 quiet_after_group quiet_after_killpg);
    vm_compute; reflexivity.
Defined.

(** ** Where the specification and the code part *)

(** C8 as stated fails when two control characters coincide: at a
    terminal with ISIG on whose suspend character is [^C], as its
    interrupt character is, the key [^C] equals VSUSP and the one signal
    delivered to the foreground group is SIGINT, not SIGTSTP. *)
Lemma send_signal_for_key_shared_char :
  Z.land (c_lflag shared_intr_susp_tty) (ISIG linux) ≠ 0
  ∧ 3 = c_cc shared_intr_susp_tty (VSUSP linux)
  ∧ shared_char_run.1 = Ok true
  ∧ signals_sent (trace shared_char_run.2) = [(7, SIGINT)]
  ∧ signals_sent (trace shared_char_run.2) ≠ [(7, SIGTSTP)].
Proof.
  split; [discriminate|]. split; [reflexivity|].
  split; [vm_compute; reflexivity|].
  split; [vm_compute; reflexivity|].
  vm_compute. discriminate.
Qed.


(** C9 as stated fails for [foreground_processes]: the foreground group
    has the members 101, 150 and 99, none of which can be read (their
    command line and working directory both raise), and the list
    returned is not empty: it has one descriptor per member. *)
Lemma foreground_processes_member_gone :
  (answer quiet _ (Cmdline_of_pid 101) tt).1 = Raise OSError
  ∧ (answer quiet _ (Cwd_of_process 101) tt).1 = Raise OSError
  ∧ (foreground_processes (answer quiet) quiet_start).1
    = Ok [ {| pd_cwd := None; pd_pid := 101; pd_cmdline := Some [] |};
           {| pd_cwd := None; pd_pid := 150; pd_cmdline := Some [] |};
           {| pd_cwd := None; pd_pid := 99; pd_cmdline := Some [] |} ]
  ∧ (foreground_processes (answer quiet) quiet_start).1 ≠ Ok [].
Proof.
  split; [reflexivity|]. split; [reflexivity|].
  split; [vm_compute; reflexivity|]. vm_compute. discriminate.
Qed.

(** * Further properties *)

(** ** [parse_environ_block] *)

(** X1: the keys of the mapping [parse_environ_block] returns are
    distinct and non-empty and contain neither [=] nor NUL; its values
    contain no NUL. *)
Theorem parse_environ_block_wellformed (data : str) :
  NoDup (dict_keys (parse_environ_block data))
  ∧ Forall (λ kv : str * str,
              kv.1 ≠ [] ∧ (EQUALS ∉ kv.1) ∧ (NUL ∉ kv.1) ∧ (NUL ∉ kv.2))
           (parse_environ_block data).
Proof. exact (parse_environ_block_ok data). Qed.

Lemma records_acc_no_nul (cur tail : str) :
  NUL ∉ tail → records_acc cur tail = [].
Proof.
  revert cur. induction tail as [|c tail IH]; intros cur Hn; simpl; [done|].
  apply not_elem_of_cons in Hn as [Hc Hn].
  destruct (Ascii.eqb_spec c NUL) as [->|_]; [done|]. by apply IH.
Qed.

Lemma records_acc_tail (data cur tail : str) :
  NUL ∉ tail → records_acc cur (data ++ tail) = records_acc cur data.
Proof.
  intros Hn. revert cur. induction data as [|c data IH]; intros cur; simpl.
  - by apply records_acc_no_nul.
  - destruct (Ascii.eqb c NUL); [|by apply IH].
    destruct cur; [done|]. by rewrite IH.
Qed.

(** X2: text after the last NUL of a block is not parsed: appending
    NUL-free text to any block leaves the result unchanged. *)
Theorem parse_environ_block_ignores_tail (data tail : str) :
  NUL ∉ tail →
  parse_environ_block (data ++ tail) = parse_environ_block data.
Proof.
  intros Hn. rewrite !parse_environ_block_records. unfold records.
  by rewrite records_acc_tail.
Qed.

Lemma records_acc_double_nul (data cur junk : str) :
  records_acc cur (data ++ [NUL] ++ [NUL] ++ junk)
  = records_acc cur (data ++ [NUL]).
Proof.
  revert cur. induction data as [|c data IH]; intros cur.
  - simpl. by destruct cur.
  - cbn [app records_acc]. destruct (Ascii.eqb c NUL); [|by apply IH].
    destruct cur; [done|]. by rewrite IH.
Qed.

(** X3: an empty record ends the parse: whatever follows two
    consecutive NULs has no effect on the result. *)
Theorem parse_environ_block_stops_at_double_nul (data junk : str) :
  parse_environ_block (data ++ [NUL] ++ [NUL] ++ junk)
  = parse_environ_block (data ++ [NUL]).
Proof.
  rewrite !parse_environ_block_records. unfold records.
  by rewrite records_acc_double_nul.
Qed.

Lemma records_serialized_app (d : dict str str) (rest : str) :
  Forall entry_ok d →
  records (serialize d ++ rest)
  = map (λ kv, kv.1 ++ [EQUALS] ++ kv.2) d ++ records rest.
Proof.
  unfold records, serialize.
  induction 1 as [|[k v] d (Hne & Heq & Hk & Hv) Hd IH]; simpl in *; [done|].
  rewrite records_acc_split.
  replace (((k ++ EQUALS :: v ++ [NUL]) ++ _) ++ rest)
    with ((k ++ EQUALS :: v) ++ NUL :: (concat
            (map (λ kv : str * str, kv.1 ++ EQUALS :: kv.2 ++ [NUL]) d)
            ++ rest))
    by (by rewrite <- !app_assoc; simpl; rewrite <- !app_assoc).
  rewrite split_nul_app.
  - simpl. rewrite IH. by destruct k.
  - rewrite elem_of_app, elem_of_cons. intros [?|[?|?]]; done.
Qed.

(** X4: a block that starts with the re-serialized entries of an
    earlier parse and continues with further records gives, for every
    key, the value of the further records when they bind the key, and
    the earlier value otherwise. *)
Theorem parse_environ_block_later_records_win (data rest k : str) :
  dict_get k (parse_environ_block
                (serialize (parse_environ_block data) ++ rest))
  = match dict_get k (parse_environ_block rest) with
    | Some v => Some v
    | None => dict_get k (parse_environ_block data)
    end.
Proof.
  destruct (parse_environ_block_ok data) as [Hnd Hall].
  rewrite (parse_environ_block_records (_ ++ rest)).
  rewrite records_serialized_app, fold_left_app by done.
  rewrite fold_add_record_serialized by done.
  rewrite dict_update_fresh by done. simpl.
  rewrite dict_get_fold_add_record.
  rewrite (parse_environ_block_records rest), dict_get_fold_add_record.
  simpl. by destruct (lookup_last _ _).
Qed.

Lemma parse_environ_block_ignores_tail_witness :
  (NUL ∉ s "PARTIAL=va")
  ∧ parse_environ_block (blob1 ++ s "PARTIAL=va") = parse_environ_block blob1.
Proof.
  assert (NUL ∉ s "PARTIAL=va") as Hn.
  { rewrite list_elem_of_In. vm_compute. intuition discriminate. }
  split; [exact Hn|]. exact (parse_environ_block_ignores_tail blob1 _ Hn).
Defined.

(** ** [cmdline_of_pid] outside macOS *)

Lemma split_on_app (c : ascii) (a r : str) :
  c ∉ a → split_on c (a ++ c :: r) = a :: split_on c r.
Proof.
  induction a as [|x a IH]; intros Ha; simpl.
  - by rewrite Ascii.eqb_refl.
  - apply not_elem_of_cons in Ha as [Hx Ha].
    destruct (Ascii.eqb_spec x c) as [->|_]; [done|]. by rewrite IH.
Qed.

Lemma split_on_cmdline_file (args : list str) :
  Forall (λ a : str, NUL ∉ a) args →
  split_on NUL (cmdline_file args) = args ++ [[]].
Proof.
  unfold cmdline_file. induction 1 as [|a args Ha Hargs IH]; simpl; [done|].
  rewrite <- app_assoc. simpl. rewrite split_on_app by done. by rewrite IH.
Qed.

Lemma split_on_pieces (c : ascii) (p : str) :
  Forall (λ x : str, c ∉ x) (split_on c p).
Proof.
  induction p as [|x p IH]; simpl.
  - repeat constructor. apply not_elem_of_nil.
  - destruct (Ascii.eqb_spec x c) as [->|Hne].
    + constructor; [apply not_elem_of_nil|done].
    + destruct (split_on c p) as [|h t]; [repeat constructor|].
      * apply not_elem_of_cons. split; [done|apply not_elem_of_nil].
      * apply Forall_cons in IH as [Hh Ht]. constructor; [|done].
        apply not_elem_of_cons. by split.
Qed.

(** X5: reading back the kernel's encoding of a command line (every
    argument followed by a NUL) gives the arguments in order, without
    the empty ones; whatever the file holds, no argument read is empty
    or contains a NUL. *)
Theorem split_cmdline_of_cmdline_file (args : list str) :
  Forall (λ a : str, NUL ∉ a) args →
  split_cmdline (cmdline_file args) = filter (λ a : str, a ≠ []) args
  ∧ ∀ raw, Forall (λ a : str, a ≠ [] ∧ NUL ∉ a) (split_cmdline raw).
Proof.
  intros Hargs. split.
  - unfold split_cmdline. rewrite split_on_cmdline_file by done.
    rewrite filter_app. simpl. rewrite filter_cons_False by (by intros ?).
    by rewrite filter_nil, app_nil_r.
  - intros raw. unfold split_cmdline. apply Forall_forall.
    intros a [Hne Hin]%list_elem_of_filter. split; [done|].
    pose proof (split_on_pieces NUL raw) as Hp.
    rewrite Forall_forall in Hp. by apply Hp.
Qed.

Lemma split_cmdline_of_cmdline_file_witness :
  Forall (λ a : str, NUL ∉ a) [s "vim"; s ""; s "notes.txt"]
  ∧ split_cmdline (cmdline_file [s "vim"; s ""; s "notes.txt"])
    = [s "vim"; s "notes.txt"].
Proof.
  assert (Forall (λ a : str, NUL ∉ a) [s "vim"; s ""; s "notes.txt"]) as H.
  { repeat constructor; rewrite list_elem_of_In; vm_compute;
      intuition discriminate. }
  split; [exact H|].
  exact (proj1 (split_cmdline_of_cmdline_file _ H)).
Defined.

(** ** [process_group_map] *)

Lemma group_append_lookup (ans : gmap Z (list Z)) (q pid g : Z) :
  default [] (group_append ans q pid !! g)
  = default [] (ans !! g) ++ (if decide (q = g) then [pid] else []).
Proof.
  unfold group_append. destruct (decide (q = g)) as [->|Hne].
  - by rewrite lookup_insert_eq.
  - rewrite lookup_insert_ne by done. by rewrite app_nil_r.
Qed.

Lemma fold_group_append_lookup (pairs : list (Z * Z)) ans (g : Z) :
  default [] (fold_left (λ a pp, group_append a pp.2 pp.1) pairs ans !! g)
  = default [] (ans !! g) ++ (filter (λ pp : Z * Z, pp.2 = g) pairs).*1.
Proof.
  revert ans. induction pairs as [|[p q] pairs IH]; intros ans; simpl.
  - by rewrite app_nil_r.
  - rewrite IH, group_append_lookup, filter_cons. simpl.
    destruct (decide (q = g)); simpl; by rewrite <- app_assoc.
Qed.

Lemma fold_group_append_nonempty (pairs : list (Z * Z)) ans :
  (∀ g l, ans !! g = Some l → l ≠ []) →
  ∀ g l,
    fold_left (λ a pp, group_append a pp.2 pp.1) pairs ans !! g = Some l →
    l ≠ [].
Proof.
  revert ans. induction pairs as [|[p q] pairs IH]; intros ans Hans; simpl.
  - done.
  - apply IH. intros g l. unfold group_append.
    destruct (decide (q = g)) as [->|Hne].
    + rewrite lookup_insert_eq. intros [= <-]. by destruct (default _ _).
    + rewrite lookup_insert_ne by done. apply Hans.
Qed.

Lemma filter_pgid_none (pairs : list (Z * Z)) (g : Z) :
  Forall (λ pp : Z * Z, pp.2 ≠ g) pairs →
  filter (λ pp : Z * Z, pp.2 = g) pairs = [].
Proof.
  induction 1 as [|pp pairs' Hpp _ IH]; [done|].
  by rewrite filter_cons_False.
Qed.

(** X6: the map built from the system's [(pid, pgid)] pairs lists,
    under each group id, exactly the pids paired with it, in the order
    the system gave them; a group id with no pid has no entry, so no
    group is listed as empty. *)
Theorem process_group_map_macos_groups (pairs : list (Z * Z)) (g : Z) :
  default [] (process_group_map_macos pairs !! g)
  = (filter (λ pp : Z * Z, pp.2 = g) pairs).*1
  ∧ (process_group_map_macos pairs !! g = None
     ↔ Forall (λ pp : Z * Z, pp.2 ≠ g) pairs).
Proof.
  unfold process_group_map_macos.
  pose proof (fold_group_append_lookup pairs ∅ g) as Hl.
  rewrite lookup_empty in Hl. simpl in Hl. split; [done|].
  split.
  - intros Hn. rewrite Hn in Hl. simpl in Hl.
    apply Forall_forall. intros pp Hin Hg.
    assert (pp ∈ filter (λ pp : Z * Z, pp.2 = g) pairs) as Hf
      by (by apply list_elem_of_filter).
    destruct (filter _ pairs); [by apply not_elem_of_nil in Hf|done].
  - intros Hall.
    destruct (fold_left _ pairs ∅ !! g) as [l|] eqn:Hg; [|done].
    exfalso. apply (fold_group_append_nonempty pairs ∅) in Hg as Hne.
    2:{ intros ? ?. by rewrite lookup_empty. }
    simpl in Hl. rewrite Hl in Hne. apply Hne.
    by rewrite (filter_pgid_none pairs g Hall).
Qed.

Section ProcessGroupMapLinuxProperties.
Variable py_int : str -> option Z.

Lemma scan_entry_raise x stat e :
  scan_entry py_int x stat = Raise e →
  is_Some (py_int x) ∧ stat = Raise e ∧ e ≠ OSError.
Proof.
  unfold scan_entry. destruct (py_int x); [|done].
  destruct stat as [raw|e0].
  - destruct (stat_field_4 raw); [|done]. by destruct (py_int _).
  - destruct e0; try done; intros [= <-]; by repeat split.
Qed.

Lemma process_group_map_linux_from_ok ans entries :
  Forall (λ e : str * result str, ∀ err, e.2 = Raise err → err = OSError)
         entries →
  process_group_map_linux_from py_int ans entries
  = Ok (fold_left (λ a pp, group_append a pp.2 pp.1)
                  (scanned_pairs py_int entries) ans).
Proof.
  intros Hall. revert ans.
  induction Hall as [|[x stat] entries Hx _ IH]; intros ans; [done|].
  cbn [process_group_map_linux_from scanned_pairs omap list_omap fst snd].
  destruct (scan_entry py_int x stat) as [[[pid q]|]|e] eqn:Hs.
  - apply IH.
  - apply IH.
  - apply scan_entry_raise in Hs as (_ & -> & Hne).
    by specialize (Hx e eq_refl).
Qed.

Lemma scanned_pairs_spec entries pid q :
  (pid, q) ∈ scanned_pairs py_int entries
  ↔ ∃ x raw f, (x, Ok raw) ∈ entries ∧ py_int x = Some pid
               ∧ stat_field_4 raw = Some f ∧ py_int f = Some q.
Proof.
  unfold scanned_pairs. rewrite list_elem_of_omap. split.
  - intros ([x stat] & Hin & Hs). simpl in Hs. unfold scan_entry in Hs.
    destruct (py_int x) as [pid'|] eqn:Hx; [|done].
    destruct stat as [raw|[]]; try done.
    destruct (stat_field_4 raw) as [f|] eqn:Hf; [|done].
    destruct (py_int f) as [q'|] eqn:Hq; [|done].
    injection Hs as <- <-. by exists x, raw, f.
  - intros (x & raw & f & Hin & Hx & Hf & Hq).
    exists (x, Ok raw). split; [done|]. simpl. unfold scan_entry.
    by rewrite Hx, Hf, Hq.
Qed.

(** X7: when reading a [stat] file fails only ever with [OSError], the
    scan of [/proc] completes, and its result is the map the macOS
    strategy builds from the pairs of the entries that could be read: an
    entry contributes its pid to a group exactly when its name is an
    integer, its [stat] file was read, and the fifth space-separated
    field of that file is an integer. *)
Theorem process_group_map_linux_skips (entries : list (str * result str)) :
  Forall (λ e : str * result str, ∀ err, e.2 = Raise err → err = OSError)
         entries →
  process_group_map_linux py_int entries
  = Ok (process_group_map_macos (scanned_pairs py_int entries))
  ∧ ∀ pid q,
      (pid, q) ∈ scanned_pairs py_int entries
      ↔ ∃ x raw f, (x, Ok raw) ∈ entries ∧ py_int x = Some pid
                   ∧ stat_field_4 raw = Some f ∧ py_int f = Some q.
Proof.
  intros Hall. split; [|apply scanned_pairs_spec].
  by apply process_group_map_linux_from_ok.
Qed.

Lemma process_group_map_linux_from_raise ans entries x e :
  (x, Raise e) ∈ entries → is_Some (py_int x) → e ≠ OSError →
  ∃ e', process_group_map_linux_from py_int ans entries = Raise e'.
Proof.
  intros Hin [pid Hx] Hne. revert ans.
  induction entries as [|[x' stat] entries IH]; intros ans.
  - by apply not_elem_of_nil in Hin.
  - cbn [process_group_map_linux_from].
    apply elem_of_cons in Hin as [[= <- <-]|Hin].
    + unfold scan_entry. rewrite Hx. destruct e; try done; by eexists.
    + destruct (scan_entry py_int x' stat) as [[[? ?]|]|?]; [| |by eexists];
        by apply IH.
Qed.

(** X8: a failure other than [OSError] while reading the [stat] file of
    an entry with an integer name (a file that does not decode as
    UTF-8, say) is not skipped: the whole scan raises. *)
Theorem process_group_map_linux_aborts
    (entries : list (str * result str)) (x : str) (e : exn) :
  (x, Raise e) ∈ entries → is_Some (py_int x) → e ≠ OSError →
  ∃ e', process_group_map_linux py_int entries = Raise e'.
Proof. apply process_group_map_linux_from_raise. Qed.

End ProcessGroupMapLinuxProperties.

Lemma split_on_max_app (c : ascii) (f r : str) (n : nat) :
  c ∉ f → split_on_max c (f ++ c :: r) (S n) = f :: split_on_max c r n.
Proof.
  induction f as [|x f IH]; intros Hf; simpl.
  - by rewrite Ascii.eqb_refl.
  - apply not_elem_of_cons in Hf as [Hx Hf].
    destruct (Ascii.eqb_spec x c) as [->|_]; [done|]. by rewrite IH.
Qed.

(** X9: in a [stat] line whose first five fields contain no space, the
    field taken for the group id is the fifth, whatever follows it. *)
Theorem stat_field_4_fifth (f0 f1 f2 f3 f4 rest : str) :
  Forall (λ f : str, " "%char ∉ f) [f0; f1; f2; f3; f4] →
  stat_field_4 (f0 ++ s " " ++ f1 ++ s " " ++ f2 ++ s " " ++ f3 ++ s " "
                ++ f4 ++ s " " ++ rest) = Some f4.
Proof.
  rewrite !Forall_cons. intros (H0 & H1 & H2 & H3 & H4 & _).
  unfold stat_field_4. change (s " ") with [" "%char]. simpl app.
  rewrite !split_on_max_app by done. reflexivity.
Qed.

Lemma stat_field_4_fifth_witness :
  Forall (λ f : str, " "%char ∉ f)
         [s "4242"; s "(vim)"; s "S"; s "4100"; s "4242"]
  ∧ stat_field_4 (s "4242 (vim) S 4100 4242 4100 34816 4242")
    = Some (s "4242").
Proof.
  assert (Forall (λ f : str, " "%char ∉ f)
                 [s "4242"; s "(vim)"; s "S"; s "4100"; s "4242"]) as H.
  { repeat constructor; rewrite list_elem_of_In; vm_compute;
      intuition discriminate. }
  split; [exact H|].
  exact (stat_field_4_fifth _ _ _ _ _ (s "4100 34816 4242") H).
Defined.

Lemma process_group_map_linux_skips_witness :
  Forall (λ e : str * result str, ∀ err, e.2 = Raise err → err = OSError)
         proc_listing
  ∧ process_group_map_linux digits_int proc_listing
    = Ok (process_group_map_macos [(4242, 4242); (4100, 4100)]).
Proof.
  assert (Forall (λ e : str * result str,
                    ∀ err, e.2 = Raise err → err = OSError)
                 proc_listing) as H.
  { repeat constructor; simpl; intros err; congruence. }
  split; [exact H|].
  exact (proj1 (process_group_map_linux_skips digits_int _ H)).
Defined.

Lemma process_group_map_linux_aborts_witness :
  (s "17", Raise ValueError) ∈ bad_listing
  ∧ is_Some (digits_int (s "17"))
  ∧ ValueError ≠ OSError
  ∧ ∃ e', process_group_map_linux digits_int bad_listing = Raise e'.
Proof.
  assert ((s "17", Raise ValueError) ∈ bad_listing)
    as Hin by (apply list_elem_of_further, list_elem_of_here).
  assert (is_Some (digits_int (s "17"))) as Hs by (by eexists).
  assert (ValueError ≠ OSError) as Hne by discriminate.
  repeat split; try done.
  exact (process_group_map_linux_aborts digits_int _ _ _ Hin Hs Hne).
Defined.

(** ** [is_prewarmable] *)

(** X10: [is_prewarmable] raises in exactly one situation: at least
    three arguments, a first argument whose basename is [kitty], and an
    empty second argument; the exception is [IndexError]. *)
Theorem is_prewarmable_raises (argv : list str) (e : exn) :
  is_prewarmable argv = Raise e
  ↔ e = IndexError
    ∧ ∃ argv0 argv2 rest,
        argv = argv0 :: [] :: argv2 :: rest ∧ basename argv0 = s "kitty".
Proof.
  split.
  - destruct argv as [|argv0 [|argv1 [|argv2 rest]]]; try done.
    cbn [is_prewarmable].
    destruct (str_eqb (basename argv0) (s "kitty")) eqn:Hb; [|done].
    apply str_eqb_eq in Hb. cbn [negb].
    destruct argv1 as [|c argv1].
    + cbn. intros [= <-]. split; [done|]. by exists argv0, argv2, rest.
    + destruct (negb _); [done|].
      destruct (Ascii.eqb c "@"); [done|].
      by destruct (str_eqb _ _).
  - intros (-> & argv0 & argv2 & rest & -> & Hb). cbn [is_prewarmable].
    apply str_eqb_eq in Hb. by rewrite Hb.
Qed.

Lemma rfind_aux_absent (c : ascii) (l : str) (i : Z) :
  c ∉ l → rfind_aux c l i = None.
Proof.
  revert i. induction l as [|x l IH]; intros i Hl; simpl; [done|].
  apply not_elem_of_cons in Hl as [Hx Hl]. rewrite IH by done.
  destruct (Ascii.eqb_spec x c); [congruence|done].
Qed.

Lemma rfind_aux_last (c : ascii) (dir name : str) (i : Z) :
  c ∉ name → rfind_aux c (dir ++ c :: name) i = Some (i + len dir).
Proof.
  intros Hn. revert i. induction dir as [|x dir IH]; intros i; simpl.
  - rewrite rfind_aux_absent by done. rewrite Ascii.eqb_refl.
    unfold len. simpl. f_equal. lia.
  - rewrite IH. unfold len. simpl length. f_equal. lia.
Qed.

Lemma basename_path (dir name : str) :
  SLASH ∉ name → basename (dir ++ SLASH :: name) = name.
Proof.
  intros Hn. unfold basename, rfind, slice_from.
  rewrite rfind_aux_last by done. simpl.
  replace (Z.to_nat (0 + len dir + 1)) with (length (dir ++ [SLASH]))
    by (rewrite length_app; unfold len; simpl; lia).
  replace (dir ++ SLASH :: name) with ((dir ++ [SLASH]) ++ name)
    by (by rewrite <- app_assoc).
  by rewrite drop_app_length.
Qed.

(** X11: the directory in front of the program name does not matter:
    launching [<dir>/kitty ...] is classified as launching
    [kitty ...], for every directory and every list of arguments. *)
Theorem is_prewarmable_ignores_directory (dir : str) (args : list str) :
  is_prewarmable ((dir ++ s "/kitty") :: args)
  = is_prewarmable (s "kitty" :: args).
Proof.
  destruct args as [|argv1 [|argv2 rest]]; try done.
  cbn [is_prewarmable]. change (s "/kitty") with (SLASH :: s "kitty").
  rewrite basename_path; [done|].
  rewrite list_elem_of_In. vm_compute. intuition discriminate.
Qed.

(** ** Further methods and module-level functions *)

Section MoreProgramProperties.
Context {world : Type}.
Variable handle : forall A : Type, call A -> world -> result A * world.
Variable K : constants.
Variable delete_env_var_str : str.
Variable mark_child_as_ready : Z -> M world unit.

Implicit Types st : state world.

Lemma about_self_sys (Q : Child → Prop) {A} (c : call A) :
  stable (λ st, Q (self st)) (sys handle c).
Proof. intros st H. by rewrite sys_self. Qed.

Lemma about_self_modify_globals (Q : Child → Prop) g :
  stable (λ st, Q (self st)) (modify_globals (world:=world) g).
Proof. by intros st H. Qed.

Lemma about_self_modify_self (Q : Child → Prop) f :
  (∀ c, Q c → Q (f c)) →
  stable (λ st, Q (self st)) (modify_self (world:=world) f).
Proof. intros Hf st H. by apply Hf. Qed.

Lemma about_globals_sys (Q : Globals → Prop) {A} (c : call A) :
  stable (λ st, Q (globals st)) (sys handle c).
Proof. intros st H. unfold sys. by destruct (handle A c (os st)). Qed.

Lemma about_globals_modify_self (Q : Globals → Prop) f :
  stable (λ st, Q (globals st)) (modify_self (world:=world) f).
Proof. by intros st H. Qed.

Ltac preserved_step :=
  lazymatch goal with
  | |- stable _ (bind _ _) => apply stable_bind; [|intros ?]
  | |- stable _ (pure _) => apply stable_pure
  | |- stable _ (raise _) => apply stable_raise
  | |- stable _ (lift _) => apply stable_lift
  | |- stable _ get_self => apply stable_get_self
  | |- stable _ get_globals => apply stable_get_globals
  | |- stable _ (assert_some _) => apply stable_assert_some
  | |- stable _ (try_except _ _) => apply stable_try_except; [|intros ?]
  | |- stable _ (try_finally _ _) => apply stable_try_finally
  | |- stable _ (mapM _ _) => apply stable_mapM; intros ?
  | |- stable (sent _) (sys _ _) => apply sent_sys; reflexivity
  | |- stable (sent _) (modify_self _) => apply sent_modify_self
  | |- stable (sent _) (modify_globals _) => apply sent_modify_globals
  | |- stable (self_is _) (sys _ _) => apply self_is_sys
  | |- stable (self_is _) (modify_globals _) => apply self_is_modify_globals
  | |- stable (λ st, _ (self st)) (sys _ _) => apply about_self_sys
  | |- stable (λ st, _ (self st)) (modify_globals _) =>
      apply about_self_modify_globals
  | |- stable (λ st, _ (self st)) (modify_self _) =>
      apply about_self_modify_self; intros [] ?; assumption
  | |- stable (λ st, _ (globals st)) (sys _ _) => apply about_globals_sys
  | |- stable (λ st, _ (globals st)) (modify_self _) =>
      apply about_globals_modify_self
  | |- stable _ (match ?x with _ => _ end) => destruct x
  end.

(** *** The process-group cache *)

Lemma try_sys_default {A} (c : call A) (d : A) st :
  try_except (sys handle c) (λ _, pure d) st
  = (Ok (match (sys handle c st).1 with Ok a => a | Raise _ => d end),
     (sys handle c st).2).
Proof. unfold try_except. by destruct (sys handle c st) as [[a|e] st']. Qed.

Lemma processes_in_group_cached m grp st :
  cached_map (globals st) = Some m →
  processes_in_group handle grp st = (Ok (default [] (m !! grp)), st).
Proof.
  intros Hc. unfold processes_in_group. rewrite run_get_globals, Hc.
  reflexivity.
Qed.

Lemma mapM_processes_in_group_cached m grps st :
  cached_map (globals st) = Some m →
  mapM (processes_in_group handle) grps st
  = (Ok (map (λ g, default [] (m !! g)) grps), st).
Proof.
  intros Hc. induction grps as [|g grps IH]; [done|].
  cbn [mapM map].
  rewrite (run_bind _ _ _ _ _ (processes_in_group_cached m g st Hc)).
  by rewrite (run_bind _ _ _ _ _ IH).
Qed.

(** X12: inside [cached_process_data] any number of group lookups
    costs one scan of the process table: the lookups are answered from
    the snapshot taken on entry (empty if the scan failed), the only
    call issued is that scan, and on exit the snapshot is gone. *)
Theorem cached_process_data_one_scan (grps : list Z) st :
  ∃ snapshot st',
    cached_process_data handle (mapM (processes_in_group handle) grps) st
    = (Ok (map (λ g, default [] (snapshot !! g)) grps), st')
    ∧ snapshot = match (sys handle Process_group_map st).1 with
                 | Ok m => m
                 | Raise _ => ∅
                 end
    ∧ trace st' = trace st ++ [Ev Process_group_map]
    ∧ cached_map (globals st') = None
    ∧ self st' = self st.
Proof.
  eexists _, _. unfold cached_process_data.
  rewrite (run_bind _ _ _ _ _ (try_sys_default Process_group_map ∅ st)).
  rewrite run_modify_self || unfold bind at 1, modify_globals at 1.
  unfold try_finally.
  erewrite mapM_processes_in_group_cached by reflexivity.
  unfold del_cached_map. rewrite run_get_globals. cbn.
  split; [reflexivity|]. split; [reflexivity|].
  split; [|split; [reflexivity|apply sys_self]].
  unfold sys. by destruct (handle _ _ _).
Qed.

(** X13: the scope does not nest.  When the body keeps the snapshot in
    place, an inner [cached_process_data] removes it on its way out and
    the outer one then fails to remove it again: the nested use raises
    [AttributeError], whatever the body did. *)
Theorem cached_process_data_nested {A} (body : M world A) st :
  stable (λ st, is_Some (cached_map (globals st))) body →
  ∃ st', cached_process_data handle (cached_process_data handle body) st
         = (Raise AttributeError, st').
Proof.
  intros Hbody. unfold cached_process_data at 1.
  rewrite (run_bind _ _ _ _ _ (try_sys_default Process_group_map ∅ st)).
  unfold bind at 1, modify_globals at 1. unfold try_finally at 1.
  match goal with |- context [cached_process_data handle body ?s] =>
    set (st1 := s) end.
  unfold cached_process_data.
  rewrite (run_bind _ _ _ _ _ (try_sys_default Process_group_map ∅ st1)).
  unfold bind at 1, modify_globals at 1. unfold try_finally at 1.
  match goal with |- context [body ?s] =>
    pose proof (Hbody s (mk_is_Some _ _ eq_refl)) as Hkeep;
    destruct (body s) as [r st2] end.
  simpl in Hkeep. destruct Hkeep as [m Hm].
  unfold del_cached_map at 1. rewrite run_get_globals, Hm.
  cbn [modify_globals]. unfold del_cached_map. rewrite run_get_globals.
  cbn. by eexists.
Qed.

(** *** [cmdline_of_prewarmer] *)

(** X14: the first call of [cmdline_of_prewarmer] never raises.  It
    answers with the command line read for the pre-warm worker when the
    worker's pid is had and its command line is read, and with a list
    holding one empty string, not with the empty list, when either of
    the two fails; the [Child] is left as it was. *)
Theorem cmdline_of_prewarmer_first_call st :
  prewarmer_cmdline (globals st) = None →
  ∃ v,
    (cmdline_of_prewarmer handle st).1 = Ok v
    ∧ (∀ wp st0 ans,
         sys handle Prewarm_worker_pid st = (Ok wp, st0) →
         (sys handle (Cmdline_of_pid wp) st0).1 = Ok ans →
         v = ans)
    ∧ ((∃ e, (sys handle Prewarm_worker_pid st).1 = Raise e) →
       v = [s ""])
    ∧ (∀ wp st0,
         sys handle Prewarm_worker_pid st = (Ok wp, st0) →
         (∃ e, (sys handle (Cmdline_of_pid wp) st0).1 = Raise e) →
         v = [s ""])
    ∧ self (cmdline_of_prewarmer handle st).2 = self st.
Proof.
  clear K delete_env_var_str mark_child_as_ready.
  intros Hc.
  pose proof (self_is_cmdline_of_prewarmer handle (self st) st eq_refl)
    as Hself.
  unfold cmdline_of_prewarmer in *. rewrite run_get_globals, Hc in *.
  unfold bind at 1, try_except. unfold bind at 1.
  destruct (sys handle Prewarm_worker_pid st) as [[wp|e] st0] eqn:Hw.
  - destruct (sys handle (Cmdline_of_pid wp) st0) as [[ans|e] st1] eqn:Hq.
    + exists ans. cbn. split; [done|]. split.
      * intros ? ? ? [= <- <-]. rewrite Hq. by intros [= <-].
      * split; [by intros [? ?]|]. split; [|done].
        intros ? ? [= <- <-]. rewrite Hq. by intros [? ?].
    + exists [s ""]. cbn. split; [done|]. split; [|done].
      intros ? ? ? [= <- <-]. by rewrite Hq.
  - exists [s ""]. cbn. by repeat split.
Qed.

(** *** [__del__] and [mark_terminal_ready] *)

Lemma set_terminal_ready_fd_id (c : Child) (x : option Z) :
  terminal_ready_fd c = x → set_terminal_ready_fd x c = c.
Proof. destruct c. simpl. by intros ->. Qed.

Lemma del_when_released st :
  terminal_ready_fd (self st) = Some (-1) →
  __del__ handle st = (Ok tt, st).
Proof.
  intros H. unfold __del__. rewrite run_get_self, H. simpl.
  unfold bind, pure, modify_self.
  rewrite set_terminal_ready_fd_id by done. by destruct st.
Qed.

(** X15: once [__del__] has run to completion, running it again closes
    nothing: it issues no call and changes nothing. *)
Theorem del_closes_once st st1 :
  __del__ handle st = (Ok tt, st1) →
  __del__ handle st1 = (Ok tt, st1).
Proof.
  intros H. apply del_when_released.
  unfold __del__ in H. rewrite run_get_self in H.
  unfold bind in H.
  destruct (if _ >? -1 then _ else _) as [[[]|e] st'] in H; [|done].
  by injection H as <-.
Qed.

(** X16: after [mark_terminal_ready] has closed the readiness pipe of
    a child that was not pre-warmed, [__del__] does not close it
    again. *)
Theorem mark_terminal_ready_then_del st st1 :
  is_prewarmed (self st) = false →
  mark_terminal_ready handle mark_child_as_ready st = (Ok tt, st1) →
  __del__ handle st1 = (Ok tt, st1).
Proof.
  intros Hpw H. apply del_when_released.
  unfold mark_terminal_ready in H. rewrite run_get_self, Hpw in H.
  destruct (terminal_ready_fd (self st)) as [fd|]; [|done].
  unfold bind in H.
  destruct (sys handle (Close fd) st) as [[[]|e] st']; [|done].
  by injection H as <-.
Qed.

(** *** Reasoning about returned values *)

Lemma returns_bind P {A B} (m : M world A) R (f : A -> M world B) Q :
  returns P m R → (∀ a, returns (R a) (f a) Q) → returns P (bind m f) Q.
Proof.
  intros Hm Hf st HP b st'' Hrun. unfold bind in Hrun.
  destruct (m st) as [[a|e] st'] eqn:Hms; [|done].
  by apply (Hf a st' (Hm st HP a st' Hms) b st'').
Qed.

Lemma returns_pure P {A} (a : A) (Q : A → state world → Prop) :
  (∀ st, P st → Q a st) → returns P (pure a) Q.
Proof. intros H st HP a' st' [= <- <-]. by apply H. Qed.

Lemma returns_raise P {A} e (Q : A → state world → Prop) :
  returns P (raise e) Q.
Proof. by intros st HP a' st'. Qed.

Lemma returns_stable P {A} (m : M world A) :
  stable P m → returns P m (λ _, P).
Proof.
  intros Hm st HP a st' Hrun. specialize (Hm st HP). by rewrite Hrun in Hm.
Qed.

Lemma returns_bind_stable P {A B} (m : M world A) (f : A -> M world B) Q :
  stable P m → (∀ a, returns P (f a) Q) → returns P (bind m f) Q.
Proof.
  intros Hm Hf. eapply returns_bind; [by apply returns_stable|done].
Qed.

Lemma returns_get_self P {B} (f : Child -> M world B) Q :
  (∀ c, returns (λ st, P st ∧ self st = c) (f c) Q) →
  returns P (bind get_self f) Q.
Proof.
  intros Hf st HP b st' Hrun. rewrite run_get_self in Hrun.
  by apply (Hf (self st) st (conj HP eq_refl) b st').
Qed.

Lemma returns_modify_self P P' g {B} (f : unit -> M world B) Q :
  (∀ st, P st →
         P' {| self := g (self st); globals := globals st;
               os := os st; trace := trace st |}) →
  returns P' (f tt) Q → returns P (bind (modify_self g) f) Q.
Proof.
  intros Hg Hf st HP b st' Hrun. rewrite run_modify_self in Hrun.
  by apply (Hf _ (Hg st HP) b st').
Qed.

Lemma returns_weaken (P P' : state world → Prop) {A} (m : M world A) Q :
  (∀ st, P st → P' st) → returns P' m Q → returns P m Q.
Proof. intros HPP Hm st HP. by apply Hm, HPP. Qed.

Lemma stable_True {A} (m : M world A) : stable (λ _, True) m.
Proof. by intros st _. Qed.

Lemma about_sys (Q : Child → Prop) {A} (c : call A) :
  stable (about_self Q) (sys handle c).
Proof. intros st H. unfold about_self. by rewrite sys_self. Qed.

Lemma about_modify_globals (Q : Child → Prop) g :
  stable (about_self Q) (modify_globals (world:=world) g).
Proof. by intros st H. Qed.

Lemma about_modify_self (Q : Child → Prop) f :
  (∀ c, Q c → Q (f c)) →
  stable (about_self Q) (modify_self (world:=world) f).
Proof. intros Hf st H. by apply Hf. Qed.

Ltac about_step :=
  lazymatch goal with
  | |- stable (about_self _) (sys _ _) => apply about_sys
  | |- stable (about_self _) (modify_globals _) => apply about_modify_globals
  | |- stable (about_self _) (modify_self _) =>
      apply about_modify_self; intros [] ?; assumption
  | |- _ => preserved_step
  end.

(** *** [final_env] *)

Lemma final_env_layers_about (Q : Child → Prop) :
  (∀ c x, Q c → Q (set_argv x c)) →
  (∀ c x, Q c → Q (set_unmodified_argv x c)) →
  stable (about_self Q) (final_env_layers handle K).
Proof.
  intros Hargv Hunmod.
  unfold final_env_layers, default_env, process_env.
  repeat first
    [ apply about_modify_self; intros; by auto
    | about_step ].
Qed.

Lemma final_env_about (Q : Child → Prop) :
  (∀ c x, Q c → Q (set_argv x c)) →
  (∀ c x, Q c → Q (set_unmodified_argv x c)) →
  (∀ c x, Q c → Q (set_is_clone_launch x c)) →
  stable (about_self Q) (final_env handle K).
Proof.
  intros Hargv Hunmod Hclone. pose proof (final_env_layers_about Q).
  unfold final_env.
  repeat first
    [ apply about_modify_self; intros; by auto
    | by auto
    | about_step ].
Qed.

(** X17: [final_env] writes to [argv], [unmodified_argv] and
    [is_clone_launch] only: whether it returns or raises, every other
    field of the [Child] is as before. *)
Theorem final_env_frame st :
  untouched_by_final_env (self (final_env handle K st).2)
  = untouched_by_final_env (self st).
Proof.
  apply (final_env_about
           (λ c, untouched_by_final_env c = untouched_by_final_env (self st)));
    try (by intros [] ?); reflexivity.
Qed.

(** *** [final_env] and the deletion marker *)




(** X18: the clone token is handed out once.  A [final_env] that
    returns for a child with a non-empty [is_clone_launch] puts that
    token in [KITTY_IS_CLONE_LAUNCH] and replaces the stored token by
    ["1"], so a later [final_env] hands out ["1"]. *)
Theorem final_env_clone_token st e st' :
  final_env handle K st = (Ok e, st') →
  is_clone_launch (self st) ≠ [] →
  dict_get (s "KITTY_IS_CLONE_LAUNCH") e
  = Some (EnvStr (is_clone_launch (self st)))
  ∧ is_clone_launch (self st') = s "1"
  ∧ ∀ e2 st2,
      final_env handle K st' = (Ok e2, st2) →
      dict_get (s "KITTY_IS_CLONE_LAUNCH") e2 = Some (EnvStr (s "1")).
Proof.
  assert (∀ st e st',
            final_env handle K st = (Ok e, st') →
            is_clone_launch (self st) ≠ [] →
            dict_get (s "KITTY_IS_CLONE_LAUNCH") e
            = Some (EnvStr (is_clone_launch (self st)))
            ∧ is_clone_launch (self st') = s "1") as Hone.
  { clear. intros st e st' Hrun Htok.
    pose proof (final_env_layers_about
                  (λ c, is_clone_launch c = is_clone_launch (self st))
                  ltac:(by intros [] ?) ltac:(by intros [] ?) st eq_refl)
      as Hsame.
    unfold final_env, bind in Hrun.
    destruct (final_env_layers handle K st) as [[lay|x] st1]; [|done].
    unfold about_self in Hsame. simpl in Hsame. unfold get_self in Hrun.
    rewrite Hsame in Hrun.
    destruct (is_clone_launch (self st)) as [|a tok] eqn:Hc; [done|].
    simpl in Hrun. injection Hrun as <- <-. split; [|by destruct (self st1)].
    rewrite dict_get_set. by rewrite decide_True. }
  intros Hrun Htok. destruct (Hone st e st' Hrun Htok) as [H1 H2].
  split; [done|]. split; [done|]. intros e2 st2 Hrun2.
  destruct (Hone st' e2 st2 Hrun2) as [H3 _]; [by rewrite H2|].
  by rewrite H3, H2.
Qed.

Lemma returns_sys_const P {A} (c : call A) (v : A) :
  (∀ w, (handle A c w).1 = Ok v) →
  returns P (sys handle c) (λ a _, a = v).
Proof.
  intros Hc st _ a st' Hrun. unfold sys in Hrun.
  specialize (Hc (os st)). destruct (handle A c (os st)) as [r w].
  simpl in Hc. subst r. by injection Hrun as <- _.
Qed.

Lemma returns_pre_pure (φ : Prop) {A} (m : M world A) Q :
  (φ → returns (λ _, True) m Q) → returns (λ _, φ) m Q.
Proof. intros H st Hφ. by apply H. Qed.

Lemma returns_any {A B} (m : M world A) (f : A -> M world B) Q :
  (∀ a, returns (λ _, True) (f a) Q) → returns (λ _, True) (bind m f) Q.
Proof. intros Hf. apply returns_bind_stable; [apply stable_True|done]. Qed.

Lemma dict_get_set_ne {V} (k k' : str) (v : V) (d : dict str V) :
  k' ≠ k → dict_get k (dict_set k' v d) = dict_get k d.
Proof. intros H. rewrite dict_get_set. by rewrite decide_False. Qed.

Lemma dict_get_set_eq {V} (k : str) (v : V) (d : dict str V) :
  dict_get k (dict_set k v d) = Some v.
Proof. rewrite dict_get_set. by rewrite decide_True. Qed.

Lemma dict_get_filter_keep {V} (P : str * V → Prop) `{∀ x, Decision (P x)}
    (k : str) (v : V) (d : list (str * V)) :
  dict_get k d = Some v → P (k, v) → dict_get k (filter P d) = Some v.
Proof.
  intros Hget HP. induction d as [|[k0 v0] d IH]; [done|].
  cbn [dict_get] in Hget. rewrite filter_cons.
  destruct (decide (k0 = k)) as [->|Hne].
  - injection Hget as ->. rewrite decide_True by done. cbn [dict_get].
    by rewrite decide_True.
  - destruct (decide (P (k0, v0))); [|by apply IH].
    cbn [dict_get]. rewrite decide_False by done. by apply IH.
Qed.

Ltac key_ne := let H := fresh in intros H; vm_compute in H; discriminate H.

Ltac dict_lookup :=
  repeat first [ rewrite dict_get_set_eq
               | rewrite dict_get_set_ne by key_ne ];
  try done.

Lemma final_env_layers_identity (opts : options) :
  (∀ w, (handle _ Get_options w).1 = Ok opts) →
  s "disabled" ∈ shell_integration opts →
  returns (λ _, True) (final_env_layers handle K)
    (λ e _,
       dict_get (s "TERM") e = Some (EnvStr (term opts))
       ∧ dict_get (s "COLORTERM") e = Some (EnvStr (s "truecolor"))
       ∧ dict_get (s "KITTY_INSTALLATION_DIR") e
         = Some (EnvStr (kitty_base_dir K))).
Proof.
  intros Hopts Hdis. unfold final_env_layers.
  do 4 (apply returns_any; intros ?).
  eapply returns_bind; [by apply returns_sys_const|].
  intros o. cbn beta. apply returns_pre_pure. intros ->.
  apply returns_any. intros kitty_pid.
  eapply (returns_bind _ _
            (λ e _, dict_get (s "TERM") e = Some (EnvStr (term opts))
                    ∧ dict_get (s "COLORTERM") e
                      = Some (EnvStr (s "truecolor")))).
  { destruct (negb _).
    - apply returns_any. intros sock. apply returns_pure. intros _ _.
      split; dict_lookup.
    - apply returns_pure. intros _ _. split; dict_lookup. }
  intros env5. cbn beta. apply returns_pre_pure. intros [Hterm Hcolor].
  apply returns_any. intros tdir.
  eapply returns_bind; [by apply returns_sys_const|].
  intros o. cbn beta. apply returns_pre_pure. intros ->.
  apply returns_any. intros _.
  rewrite bool_decide_eq_true_2 by done. cbn [negb].
  apply returns_pure. intros _ _.
  assert (∀ k, k ≠ s "PWD" → k ≠ s "TERMINFO" →
               dict_get k
                 match tdir with
                 | Some d =>
                     if truthy d
                     then dict_set (s "TERMINFO") (EnvStr d)
                            (if truthy (cwd a2)
                             then dict_set (s "PWD") (EnvStr (cwd a2)) env5
                             else env5)
                     else if truthy (cwd a2)
                          then dict_set (s "PWD") (EnvStr (cwd a2)) env5
                          else env5
                 | None =>
                     if truthy (cwd a2)
                     then dict_set (s "PWD") (EnvStr (cwd a2)) env5
                     else env5
                 end = dict_get k env5) as Hk.
  { intros k H1 H2.
    destruct tdir as [d|]; [destruct (truthy d)|];
      destruct (truthy (cwd a2));
      rewrite ?dict_get_set_ne by done; done. }
  repeat split; dict_lookup; rewrite Hk by key_ne; done.
Qed.

(** X19: with shell integration disabled, the child's own environment
    cannot replace or delete the terminal's identity: whenever
    [final_env] returns, [TERM] is the configured terminal name,
    [COLORTERM] is [truecolor] and [KITTY_INSTALLATION_DIR] is kitty's
    base directory. *)
Theorem final_env_identity (opts : options) st e st' :
  (∀ w, (handle _ Get_options w).1 = Ok opts) →
  s "disabled" ∈ shell_integration opts →
  final_env handle K st = (Ok e, st') →
  dict_get (s "TERM") e = Some (EnvStr (term opts))
  ∧ dict_get (s "COLORTERM") e = Some (EnvStr (s "truecolor"))
  ∧ dict_get (s "KITTY_INSTALLATION_DIR") e
    = Some (EnvStr (kitty_base_dir K)).
Proof.
  intros Hopts Hdis Hrun.
  pose proof (final_env_layers_identity opts Hopts Hdis st I) as Hlay.
  unfold final_env, bind in Hrun.
  destruct (final_env_layers handle K st) as [[lay|x] st1]; [|done].
  destruct (Hlay lay st1 eq_refl) as (H1 & H2 & H3).
  assert (∀ k v, dict_get k lay = Some (EnvStr v) →
                 k ≠ s "KITTY_IS_CLONE_LAUNCH" →
                 dict_get k e = Some (EnvStr v)) as Hkeep.
  { intros k v Hk Hne. unfold get_self in Hrun.
    assert (dict_get k (filter (λ kv : str * envval,
                                  kv.2 ≠ DELETE_ENV_VAR) lay)
            = Some (EnvStr v)) as Hf
      by (unfold dict in *; by apply dict_get_filter_keep).
    destruct (truthy _); simpl in Hrun; injection Hrun as <- _.
    - by rewrite dict_get_set_ne.
    - by rewrite dict_get_pop_ne. }
  repeat split; apply Hkeep; try done; key_ne.
Qed.

(** *** [fork] *)

Lemma returns_get_self_any P {B} (f : Child -> M world B) Q :
  (∀ c, returns P (f c) Q) → returns P (bind get_self f) Q.
Proof.
  intros Hf. apply returns_get_self. intros c.
  eapply returns_weaken; [|apply Hf]. by intros st [? _].
Qed.

Lemma openpty_about (Q : Child → Prop) :
  stable (about_self Q) (openpty handle).
Proof. unfold openpty. repeat about_step. Qed.

Ltac about_solve :=
  repeat first
    [ assumption
    | match goal with H : ∀ _, stable _ _ |- stable _ _ => apply H end
    | about_step ].

(** X20: a [fork] that returns a pid has recorded it: the [pid] field
    holds the pid returned, [child_fd] is set, the flag [forked] is up
    and the [stdin] payload has been taken; and it was the first
    [fork] of this [Child]. *)
Theorem fork_returns_pid st p st' :
  fork handle K delete_env_var_str st = (Ok (Some p), st') →
  pid (self st') = Some p
  ∧ is_Some (child_fd (self st'))
  ∧ forked (self st') = true
  ∧ stdin (self st') = None
  ∧ forked (self st) = false.
Proof.
  clear mark_child_as_ready.
  intros Hrun. destruct (forked (self st)) eqn:Hf.
  { by rewrite (fork_when_forked handle K delete_env_var_str st Hf) in Hrun. }
  cut (pid (self st') = Some p ∧ is_Some (child_fd (self st'))
       ∧ forked (self st') = true ∧ stdin (self st') = None);
    [tauto|].
  unfold fork in Hrun.
  rewrite run_get_self, Hf, run_modify_self in Hrun.
  revert Hrun.
  match goal with
  | |- ?m ?s = _ → _ =>
      cut (returns (about_self (λ c, forked c = true)) m
             (λ r st', ∀ p, r = Some p →
                pid (self st') = Some p
                ∧ is_Some (child_fd (self st'))
                ∧ forked (self st') = true
                ∧ stdin (self st') = None));
        [intros Hr Hrun; by apply (Hr s eq_refl _ st' Hrun)|]
  end.
  clear.
  pose proof (openpty_about (λ c, forked c = true)) as Hopen.
  apply returns_bind_stable; [done|]. intros [master slave].
  apply returns_get_self_any. intros c. cbv zeta.
  apply (returns_modify_self _
           (about_self (λ c, forked c = true ∧ stdin c = None)));
    [by intros [[] ? ? ?] ?|].
  pose proof (final_env_about (λ c, forked c = true ∧ stdin c = None)
                ltac:(by intros [] ?) ltac:(by intros [] ?)
                ltac:(by intros [] ?)) as Hfe.
  do 3 (apply returns_bind_stable; [about_solve|intros ?]).
  apply returns_get_self_any. intros c1. cbv zeta.
  do 4 (apply returns_bind_stable; [about_solve|intros ?]).
  apply returns_get_self_any. intros c2.
  apply returns_bind_stable; [about_solve|intros newpid].
  apply returns_bind_stable; [about_solve|intros _].
  apply (returns_modify_self _
           (about_self (λ c, forked c = true ∧ stdin c = None
                             ∧ pid c = Some newpid)));
    [by intros [[] ? ? ?] [? ?]|].
  apply (returns_modify_self _
           (about_self (λ c, forked c = true ∧ stdin c = None
                             ∧ pid c = Some newpid
                             ∧ child_fd c = Some master)));
    [by intros [[] ? ? ?] (? & ? & ?)|].
  apply returns_get_self_any. intros c3.
  apply returns_bind_stable; [about_solve|intros ?].
  apply returns_get_self_any. intros c4.
  apply returns_bind_stable; [about_solve|intros ?].
  apply returns_pure. intros st (H1 & H2 & H3 & H4) p [= <-].
  repeat split; try done; by eexists.
Qed.

Lemma stable_set_both (P : state world → Prop) f g {B}
    (k : unit -> M world B) :
  (∀ st, P {| self := g (f (self st)); globals := globals st;
              os := os st; trace := trace st |}) →
  stable P (k tt) →
  stable P (bind (modify_self f) (λ _, bind (modify_self g) k)).
Proof.
  intros Hfg Hk st _. rewrite run_modify_self, run_modify_self.
  apply Hk, (Hfg st).
Qed.

(** X21: [pid] and [child_fd] are set together.  If both are unset
    or both set before [fork], the same holds after it, however it
    ends; no failure leaves one without the other. *)
Theorem fork_pid_and_child_fd_together st :
  (pid (self st) = None ↔ child_fd (self st) = None) →
  let c' := self (fork handle K delete_env_var_str st).2 in
  pid c' = None ↔ child_fd c' = None.
Proof.
  intros H.
  cut (stable (about_self (λ c, pid c = None ↔ child_fd c = None))
              (fork handle K delete_env_var_str));
    [intros Hs; exact (Hs st H)|].
  clear. unfold fork.
  pose proof (openpty_about (λ c, pid c = None ↔ child_fd c = None)).
  pose proof (final_env_about (λ c, pid c = None ↔ child_fd c = None)
                ltac:(by intros [] ?) ltac:(by intros [] ?)
                ltac:(by intros [] ?)).
  repeat first
    [ assumption
    | apply stable_set_both; [by intros [[] ? ? ?]|]
    | about_step ].
Qed.

(** *** [send_signal_for_key] *)

(** X22: one call of [send_signal_for_key] calls [killpg] at most
    once, however it ends; when it returns [False] it has called
    [killpg] not at all, when it returns [True] exactly once; and
    without a terminal it returns [False] without issuing any call. *)
Theorem send_signal_for_key_at_most_one (key_num : Z) st :
  ∃ l,
    signals_sent (trace (send_signal_for_key handle K key_num st).2)
    = signals_sent (trace st) ++ l
    ∧ (length l ≤ 1)%nat
    ∧ ((send_signal_for_key handle K key_num st).1 = Ok false → l = [])
    ∧ ((send_signal_for_key handle K key_num st).1 = Ok true →
       length l = 1%nat)
    ∧ (child_fd (self st) = None →
       send_signal_for_key handle K key_num st = (Ok false, st)).
Proof.
  destruct (send_signal_for_key handle K key_num st) as [r st'] eqn:Hrun.
  cbn [fst snd]. unfold send_signal_for_key in Hrun.
  rewrite run_get_self in Hrun.
  destruct (child_fd (self st)) as [fd|].
  2:{ injection Hrun as <- <-. exists []. rewrite app_nil_r.
      repeat split; intros; first [done | simpl; lia]. }
  unfold bind at 1 in Hrun.
  pose proof (sent_terminal_attributes handle _ fd st eq_refl) as Hsent.
  unfold sent in Hsent.
  destruct (terminal_attributes handle fd st) as [[t|e] st1];
    simpl in Hsent.
  2:{ injection Hrun as <- <-. exists []. rewrite app_nil_r.
      repeat split; intros; first [done | simpl; lia]. }
  destruct (Z.land (c_lflag t) (ISIG K) =? 0).
  { injection Hrun as <- <-. exists []. rewrite app_nil_r.
    repeat split; intros; first [done | simpl; lia]. }
  destruct (signal_for_key K (c_cc t) key_num) as [sg|].
  2:{ injection Hrun as <- <-. exists []. rewrite app_nil_r.
      repeat split; intros; first [done | simpl; lia]. }
  unfold bind at 1 in Hrun.
  destruct (sys handle (Tcgetpgrp fd) st1) as [[pgrp|e] st2] eqn:Hg;
    pose proof (sys_trace handle _ _ _ _ Hg) as Ht2.
  2:{ injection Hrun as <- <-. exists [].
      rewrite Ht2, signals_sent_snoc, Hsent. cbn.
      repeat split; intros; first [done | simpl; lia]. }
  unfold bind at 1 in Hrun.
  destruct (sys handle (Killpg pgrp sg) st2) as [[[]|e] st3] eqn:Hk;
    pose proof (sys_trace handle _ _ _ _ Hk) as Ht3;
    injection Hrun as <- <-; exists [(pgrp, sg)];
    rewrite Ht3, Ht2, !signals_sent_snoc, Hsent; cbn;
    rewrite ?app_nil_r; repeat split; intros; first [done | simpl; lia].
Qed.

(** *** Working directory and command line *)

(** X23: [get_foreground_cwd] never raises and never answers with an
    empty path: an empty answer of the platform is turned into
    [None]. *)
Theorem get_foreground_cwd_not_empty (oldest : bool) st :
  ∃ r, (get_foreground_cwd handle oldest st).1 = Ok r ∧ r ≠ Some [].
Proof.
  unfold get_foreground_cwd, try_except.
  match goal with |- context [bind ?m ?f st] => set (body := bind m f) end.
  assert (returns (λ _, True) body (λ r _, r ≠ Some [])) as Hbody.
  { unfold body. apply returns_any. intros [p|].
    - apply returns_any. intros x. apply returns_pure. intros _ _.
      by destruct x.
    - by apply returns_pure. }
  specialize (Hbody st I).
  destruct (body st) as [[r|e] st'].
  - exists r. split; [done|]. by apply (Hbody r st').
  - by exists None.
Qed.

Lemma cmdline_of_prewarmer_about (Q : Child → Prop) :
  stable (about_self Q) (cmdline_of_prewarmer handle).
Proof. unfold cmdline_of_prewarmer. repeat about_step. Qed.

Lemma Child_cmdline_of_pid_about (Q : Child → Prop) p :
  stable (about_self Q) (Child_cmdline_of_pid handle p).
Proof.
  pose proof (cmdline_of_prewarmer_about Q).
  unfold Child_cmdline_of_pid. about_solve.
Qed.

Lemma cmdline_about (Q : Child → Prop) :
  stable (about_self Q) (cmdline handle).
Proof.
  pose proof (Child_cmdline_of_pid_about Q).
  unfold cmdline. about_solve.
Qed.

Lemma get_pid_for_cwd_about (Q : Child → Prop) oldest :
  stable (about_self Q) (get_pid_for_cwd handle oldest).
Proof. unfold get_pid_for_cwd, processes_in_group. about_solve. Qed.

Lemma cmdline_returns_nonempty (args : list str) :
  args ≠ [] →
  returns (about_self (λ c, argv c = args)) (cmdline handle)
          (λ v _, v ≠ []).
Proof.
  intros Hargs st Hst v st' Hrun. unfold cmdline, try_except in Hrun.
  match type of Hrun with context [bind ?m ?f st] =>
    set (body := bind m f) in Hrun end.
  assert (stable (about_self (λ c, argv c = args)) body) as Hkeep.
  { pose proof (Child_cmdline_of_pid_about (λ c, argv c = args)).
    unfold body. about_solve. }
  assert (returns (about_self (λ c, argv c = args)) body (λ v _, v ≠ []))
    as Hbody.
  { unfold body. apply returns_get_self. intros c.
    apply (returns_weaken _ (λ _, argv c = args)); [by intros ? [H <-]|].
    apply returns_pre_pure. intros Hc.
    apply returns_any. intros p. apply returns_any. intros ans.
    destruct ans; apply returns_pure; intros; [by rewrite Hc|done]. }
  specialize (Hkeep st Hst). specialize (Hbody st Hst).
  destruct (body st) as [[a|e] st1].
  - injection Hrun as <- _. by apply (Hbody a st1).
  - unfold about_self in Hkeep. simpl in Hkeep.
    rewrite run_get_self in Hrun. injection Hrun as <- _. by rewrite Hkeep.
Qed.

(** X24: [cmdline] and [foreground_cmdline] never raise, and for a
    [Child] with a non-empty [argv] they never return an empty command
    line. *)
Theorem cmdline_never_empty st :
  (∃ v, (cmdline handle st).1 = Ok v
        ∧ (argv (self st) ≠ [] → v ≠ []))
  ∧ (∃ v, (foreground_cmdline handle st).1 = Ok v
          ∧ (argv (self st) ≠ [] → v ≠ [])).
Proof.
  assert (∀ st1, self st1 = self st →
                 ∃ v, (cmdline handle st1).1 = Ok v
                      ∧ (argv (self st) ≠ [] → v ≠ [])) as Hc.
  { intros st1 Hs. destruct (cmdline_no_raise handle st1) as [v Hv].
    exists v. split; [done|]. intros Hargs.
    destruct (cmdline handle st1) as [r st2] eqn:Hrun. simpl in Hv. subst r.
    apply (cmdline_returns_nonempty _ Hargs st1 (f_equal argv Hs) v st2 Hrun). }
  split; [by apply Hc|].
  unfold foreground_cmdline, try_except.
  match goal with |- context [bind ?m ?f st] => set (body := bind m f) end.
  assert (stable (about_self (λ c, c = self st)) body) as Hkeep.
  { pose proof (get_pid_for_cwd_about (λ c, c = self st) false).
    pose proof (Child_cmdline_of_pid_about (λ c, c = self st)).
    pose proof (cmdline_about (λ c, c = self st)).
    unfold body, pid_for_cwd, Child_cmdline_of_pid_opt. about_solve. }
  assert (returns (about_self (λ c, c = self st)) body
                  (λ v _, argv (self st) ≠ [] → v ≠ [])) as Hbody.
  { pose proof (get_pid_for_cwd_about (λ c, c = self st) false).
    pose proof (Child_cmdline_of_pid_about (λ c, c = self st)).
    unfold body, pid_for_cwd.
    do 3 (apply returns_bind_stable; [about_solve|intros ?]).
    apply returns_bind_stable.
    { unfold Child_cmdline_of_pid_opt. about_solve. }
    intros [|x0 ans]; cbn [truthy].
    - intros st1 Hs v st2 Hrun Hargs.
      apply (cmdline_returns_nonempty _ Hargs st1 (f_equal argv Hs) v st2 Hrun).
    - by apply returns_pure. }
  specialize (Hkeep st eq_refl). specialize (Hbody st eq_refl).
  destruct (body st) as [[v|e] st1].
  - exists v. split; [done|]. by apply (Hbody v st1).
  - by apply Hc.
Qed.

(** *** The default environment *)

Lemma dict_update_get_notin {V} (k : str) (v d : dict str V) :
  k ∉ dict_keys v → dict_get k (dict_update d v) = dict_get k d.
Proof.
  unfold dict_update. revert d.
  induction v as [|[k0 x0] v IH]; intros d Hk; [done|].
  apply not_elem_of_cons in Hk as [Hne Hk]. simpl.
  rewrite IH by done. by apply dict_get_set_ne.
Qed.

Lemma dict_update_get_in {V} (k : str) (x : V) (v d : dict str V) :
  NoDup (dict_keys v) → (k, x) ∈ v → dict_get k (dict_update d v) = Some x.
Proof.
  revert d. induction v as [|[k0 x0] v IH]; intros d Hnd Hin.
  - by apply not_elem_of_nil in Hin.
  - change (dict_keys ((k0, x0) :: v)) with (k0 :: dict_keys v) in Hnd.
    apply NoDup_cons in Hnd as [Hk0 Hnd].
    apply elem_of_cons in Hin as [[= <- <-]|Hin].
    + change (dict_update d ((k, x) :: v))
        with (dict_update (dict_set k x d) v).
      rewrite dict_update_get_notin by done. apply dict_get_set_eq.
    + change (dict_update d ((k0, x0) :: v))
        with (dict_update (dict_set k0 x0 d) v).
      by apply IH.
Qed.

(** X25: after [set_default_env(val)] has returned, [default_env()]
    answers from the stored mapping, without reading [os.environ] and
    without any other call; the flag [lc_ctype_set_by_user] says whether
    [val] has the key [LC_CTYPE]; every variable of [val] has the value
    [val] gives it, and every other variable the value [process_env()]
    gave. *)
Theorem set_default_env_then_default_env
    (val : option (dict str envval)) st st1 :
  set_default_env handle val st = (Ok tt, st1) →
  ∃ e,
    default_env handle st1 = (Ok e, st1)
    ∧ lc_ctype_set_by_user (globals st1)
      = bool_decide (s "LC_CTYPE" ∈ dict_keys (default [] val))
    ∧ (NoDup (dict_keys (default [] val)) →
       ∀ k x, (k, x) ∈ default [] val → dict_get k e = Some x)
    ∧ ∃ penv st0,
        process_env handle st = (Ok penv, st0)
        ∧ ∀ k, k ∉ dict_keys (default [] val) →
               dict_get k e = dict_get k penv.
Proof.
  intros Hrun. unfold set_default_env, bind in Hrun.
  destruct (process_env handle st) as [[penv|x] st0]; [|done].
  simpl in Hrun. injection Hrun as <-.
  exists (dict_update penv (default [] val)).
  assert (match val with
          | Some v => if truthy v then dict_update penv v else penv
          | None => penv
          end = dict_update penv (default [] val)) as Henv
    by (by destruct val as [[|? ?]|]).
  rewrite Henv. split; [reflexivity|]. split.
  - simpl. by destruct val as [[|? ?]|].
  - split.
    + intros Hnd k x Hin. by apply dict_update_get_in.
    + exists penv, st0. split; [done|]. intros k Hk.
      by apply dict_update_get_notin.
Qed.

Lemma dict_keys_pop_subseteq {V} (k : str) (d : dict str V) :
  dict_keys (dict_pop k d) ⊆ dict_keys d.
Proof.
  induction d as [|[k0 v0] d IH]; simpl; [done|].
  case_decide; simpl.
  - by apply list_subseteq_cons.
  - intros x [->|Hx]%elem_of_cons; [apply list_elem_of_here|].
    by apply list_elem_of_further, IH.
Qed.

Lemma dict_pop_NoDup {V} (k : str) (d : dict str V) :
  NoDup (dict_keys d) →
  NoDup (dict_keys (dict_pop k d)) ∧ k ∉ dict_keys (dict_pop k d).
Proof.
  induction d as [|[k0 v0] d IH]; simpl.
  - intros _. split; [constructor|apply not_elem_of_nil].
  - intros [Hk0 Hnd]%NoDup_cons. case_decide as Hk; simpl.
    + subst. done.
    + destruct (IH Hnd) as [Hnd' Hk']. split.
      * apply NoDup_cons. split; [|done].
        intros Hin. by apply Hk0, (dict_keys_pop_subseteq k d).
      * apply not_elem_of_cons. split; [congruence|done].
Qed.

Lemma dict_get_pop_Some {V} (k k' : str) (x : V) (d : dict str V) :
  NoDup (dict_keys d) →
  dict_get k (dict_pop k' d) = Some x → dict_get k d = Some x.
Proof.
  intros Hnd Hget. destruct (decide (k = k')) as [->|Hne].
  - destruct (dict_pop_NoDup k' d Hnd) as [_ Hk].
    by rewrite (dict_get_None _ _ Hk) in Hget.
  - by rewrite dict_get_pop_ne in Hget.
Qed.

Lemma dict_get_lifted (k : str) (environ : dict str str) :
  dict_get k (map (λ kv : str * str, (kv.1, EnvStr kv.2)) environ)
  = EnvStr <$> dict_get k environ.
Proof.
  induction environ as [|[k0 v0] environ IH]; simpl; [done|].
  by case_decide.
Qed.

(** X26: [process_env()] never passes on [KITTY_PREWARM_SOCKET]: in
    the mapping it returns that variable is absent, and every variable
    present has the string [os.environ] holds for it. *)
Theorem process_env_drops_prewarm_socket st (environ : dict str str) st1 :
  sys handle Os_environ st = (Ok environ, st1) →
  NoDup (dict_keys environ) →
  ∀ e st', process_env handle st = (Ok e, st') →
    dict_get (s "KITTY_PREWARM_SOCKET") e = None
    ∧ ∀ k x, dict_get k e = Some x →
             ∃ y, x = EnvStr y ∧ dict_get k environ = Some y.
Proof.
  intros Hsys Hnd e st' Hrun. unfold process_env in Hrun.
  rewrite (run_bind _ _ _ _ _ Hsys) in Hrun. unfold bind in Hrun.
  destruct (sys handle Kitty_ssl_env_var st1) as [[ssl|x] st2]; [|done].
  injection Hrun as <- _.
  set (lifted := map (λ kv : str * str, (kv.1, EnvStr kv.2)) environ).
  assert (NoDup (dict_keys lifted)) as Hl.
  { unfold lifted, dict_keys. rewrite map_map. simpl. exact Hnd. }
  set (popped := match ssl with Some v => dict_pop v lifted | None => lifted end).
  assert (NoDup (dict_keys popped)
          ∧ ∀ k x, dict_get k popped = Some x → dict_get k lifted = Some x)
    as [Hp Hsub].
  { unfold popped. destruct ssl as [v|]; [|done]. split.
    - by apply dict_pop_NoDup.
    - intros k x. by apply dict_get_pop_Some. }
  split.
  - apply dict_get_None. by apply dict_pop_NoDup.
  - intros k x Hget. apply dict_get_pop_Some in Hget; [|done].
    apply Hsub in Hget. unfold lifted in Hget.
    rewrite dict_get_lifted in Hget.
    destruct (dict_get k environ) as [y|]; [|done].
    injection Hget as <-. by exists y.
Qed.

End MoreProgramProperties.

Lemma processes_in_group_scan_failure_witness :
  cached_map (globals quiet_start) = None
  ∧ (sys (answer scan_fails) Process_group_map quiet_start).1 = Raise OSError
  ∧ (processes_in_group (answer scan_fails) 7 quiet_start).1 = Ok [].
Proof.
  split; [reflexivity|]. split; [reflexivity|].
  exact (processes_in_group_scan_failure (answer scan_fails) 7 quiet_start
           OSError eq_refl eq_refl).
Defined.

Lemma cached_process_data_nested_witness :
  stable (λ st : state unit, is_Some (cached_map (globals st)))
         (processes_in_group (answer quiet) 7)
  ∧ ∃ st', cached_process_data (answer quiet)
             (cached_process_data (answer quiet)
                (processes_in_group (answer quiet) 7)) quiet_start
           = (Raise AttributeError, st').
Proof.
  assert (stable (λ st : state unit, is_Some (cached_map (globals st)))
                 (processes_in_group (answer quiet) 7)) as H.
  { intros st [m Hm]. by rewrite (processes_in_group_cached _ m 7 st Hm). }
  split; [exact H|].
  exact (cached_process_data_nested (answer quiet) _ quiet_start H).
Defined.

Lemma del_closes_once_witness :
  __del__ (answer launching) after_first_fork = (Ok tt, after_del)
  ∧ terminal_ready_fd (self after_first_fork) = Some 8
  ∧ terminal_ready_fd (self after_del) = Some (-1)
  ∧ __del__ (answer launching) after_del = (Ok tt, after_del).
Proof.
  assert (__del__ (answer launching) after_first_fork = (Ok tt, after_del))
    as H by (vm_compute; reflexivity).
  split; [exact H|]. split; [vm_compute; reflexivity|].
  split; [vm_compute; reflexivity|].
  exact (del_closes_once (answer launching) _ _ H).
Defined.

Lemma mark_terminal_ready_then_del_witness :
  is_prewarmed (self after_first_fork) = false
  ∧ mark_terminal_ready (answer launching) (λ _, pure tt) after_first_fork
    = (Ok tt, after_mark_ready)
  ∧ __del__ (answer launching) after_mark_ready = (Ok tt, after_mark_ready).
Proof.
  assert (mark_terminal_ready (answer launching) (λ _, pure tt)
            after_first_fork = (Ok tt, after_mark_ready))
    as H by (vm_compute; reflexivity).
  split; [reflexivity|]. split; [exact H|].
  exact (mark_terminal_ready_then_del (answer launching) (λ _, pure tt)
           after_first_fork after_mark_ready eq_refl H).
Defined.

Lemma final_env_clone_token_witness :
  ∃ e st',
    final_env (answer quiet) linux clone_start = (Ok e, st')
    ∧ dict_get (s "KITTY_IS_CLONE_LAUNCH") e
      = Some (EnvStr (s "clone-token"))
    ∧ is_clone_launch (self st') = s "1".
Proof.
  destruct (final_env (answer quiet) linux clone_start)
    as [[e|x] st'] eqn:Hrun.
  2:{ vm_compute in Hrun. discriminate. }
  exists e, st'. split; [reflexivity|].
  destruct (final_env_clone_token (answer quiet) linux clone_start e st'
              Hrun ltac:(discriminate)) as (H1 & H2 & _).
  split; [exact H1|exact H2].
Defined.

Lemma final_env_identity_witness :
  ∃ e st',
    final_env (answer scan_fails) linux term_override_start = (Ok e, st')
    ∧ dict_get (s "TERM") e = Some (EnvStr (s "xterm-kitty"))
    ∧ dict_get (s "COLORTERM") e = Some (EnvStr (s "truecolor"))
    ∧ dict_get (s "KITTY_INSTALLATION_DIR") e
      = Some (EnvStr (s "/usr/lib/kitty")).
Proof.
  destruct (final_env (answer scan_fails) linux term_override_start)
    as [[e|x] st'] eqn:Hrun.
  2:{ vm_compute in Hrun. discriminate. }
  exists e, st'. split; [reflexivity|].
  exact (final_env_identity (answer scan_fails) linux
           {| term := s "xterm-kitty"; shell_integration := [s "disabled"] |}
           term_override_start e st'
           (λ w, eq_refl) (list_elem_of_here _ _) Hrun).
Defined.

Lemma fork_returns_pid_witness :
  fork (answer launching) linux [] fresh_start
  = (Ok (Some 100), after_first_fork)
  ∧ pid (self after_first_fork) = Some 100
  ∧ is_Some (child_fd (self after_first_fork))
  ∧ forked (self after_first_fork) = true
  ∧ stdin (self after_first_fork) = None
  ∧ forked (self fresh_start) = false.
Proof.
  assert (fork (answer launching) linux [] fresh_start
          = (Ok (Some 100), after_first_fork)) as H
    by (vm_compute; reflexivity).
  split; [exact H|].
  exact (fork_returns_pid (answer launching) linux [] fresh_start 100
           after_first_fork H).
Defined.

Lemma fork_pid_and_child_fd_together_witness :
  (pid (self fresh_start) = None ↔ child_fd (self fresh_start) = None)
  ∧ (pid (self after_failed_fork) = None
     ↔ child_fd (self after_failed_fork) = None).
Proof.
  assert (pid (self fresh_start) = None ↔ child_fd (self fresh_start) = None)
    as H by (split; reflexivity).
  split; [exact H|].
  exact (fork_pid_and_child_fd_together (answer quiet) linux []
           fresh_start H).
Defined.

Lemma set_default_env_then_default_env_witness :
  ∃ st1 e,
    set_default_env (answer quiet)
      (Some [(s "LC_CTYPE", EnvStr (s "C.UTF-8"))]) quiet_start
    = (Ok tt, st1)
    ∧ default_env (answer quiet) st1 = (Ok e, st1)
    ∧ lc_ctype_set_by_user (globals st1) = true.
Proof.
  destruct (set_default_env (answer quiet)
              (Some [(s "LC_CTYPE", EnvStr (s "C.UTF-8"))]) quiet_start)
    as [[[]|x] st1] eqn:Hrun.
  2:{ vm_compute in Hrun. discriminate. }
  destruct (set_default_env_then_default_env (answer quiet) _ _ _ Hrun)
    as (e & H1 & H2 & _).
  exists st1, e. split; [reflexivity|]. split; [exact H1|].
  rewrite H2. reflexivity.
Defined.

Lemma process_env_drops_prewarm_socket_witness :
  dict_get (s "KITTY_PREWARM_SOCKET") inherited_environ
  = Some (s "3:/run/kitty-prewarm")
  ∧ NoDup (dict_keys inherited_environ)
  ∧ ∃ e st',
      process_env
        (answer_environ inherited_environ (Some (s "SSL_CERT_FILE")) quiet)
        quiet_start
      = (Ok e, st')
      ∧ dict_get (s "KITTY_PREWARM_SOCKET") e = None.
Proof.
  assert (NoDup (dict_keys inherited_environ)) as Hnd.
  { apply (bool_decide_unpack _). vm_compute. exact I. }
  split; [reflexivity|]. split; [exact Hnd|].
  destruct (process_env
              (answer_environ inherited_environ (Some (s "SSL_CERT_FILE"))
                 quiet) quiet_start) as [[e|x] st'] eqn:Hrun.
  2:{ vm_compute in Hrun. discriminate. }
  exists e, st'. split; [reflexivity|].
  exact (proj1 (process_env_drops_prewarm_socket
                  (answer_environ inherited_environ
                     (Some (s "SSL_CERT_FILE")) quiet)
                  quiet_start inherited_environ _ eq_refl Hnd e st' Hrun)).
Defined.

Lemma cmdline_of_prewarmer_first_call_witness :
  prewarmer_cmdline (globals quiet_start) = None
  ∧ (sys (answer quiet) Prewarm_worker_pid quiet_start).1 = Raise OSError
  ∧ (cmdline_of_prewarmer (answer quiet) quiet_start).1 = Ok [s ""].
Proof.
  split; [reflexivity|]. split; [reflexivity|].
  destruct (cmdline_of_prewarmer_first_call (answer quiet) quiet_start
              eq_refl) as (v & Hv & _ & Hfail & _).
  rewrite Hv. f_equal. apply Hfail. by exists OSError.
Defined.

